(** * Image-scrambler: password-seeded pixel shuffling and colour shifting

    A shallow embedding of [main.py]: the three module-level functions
    [generate_seed], [shift_colors] and [shuffle_pixels], and the methods
    [display_image], [encrypt_image] and [decrypt_image] of
    [PixelShufflerApp], together with the parts of [hashlib], [random] and
    [PIL.Image] they are written against. *)

From Stdlib Require Import ZArith Lia Ascii String.
From stdpp Require Import base numbers list strings gmap.

Local Open Scope Z_scope.

(** ** Exceptions

    The exceptions the modelled code can raise, and the result of a
    computation that may raise one. *)

Inductive exn : Type :=
  | UnicodeEncodeError   (* [str.encode] on a lone surrogate *)
  | ValueError           (* [int(s, 16)] on a malformed literal *)
  | IndexError           (* a list index out of range *)
  | TypeError.           (* [putdata] with too many data entries *)

Inductive result (A : Type) : Type :=
  | Ok (a : A)
  | Raise (e : exn).
Arguments Ok {A} a.
Arguments Raise {A} e.

(** ** [str] and [str.encode()]

    A Python [str] is a sequence of code points; [encode()] with no
    argument is UTF-8 and raises [UnicodeEncodeError] on a surrogate code
    point.  Bytes are integers in [0, 256). *)

Definition str : Type := list N.

Definition str_of_string (s : string) : str :=
  (λ c, N_of_ascii c) <$> String.list_ascii_of_string s.

Definition utf8_char (c : N) : option (list Z) :=
  let c := Z.of_N c in
  if c <? 128 then Some [c]
  else if c <? 2048 then Some [192 + c / 64; 128 + c mod 64]
  else if c <? 65536 then
    if (55296 <=? c) && (c <? 57344) then None
    else Some [224 + c / 4096; 128 + (c / 64) mod 64; 128 + c mod 64]
  else if c <? 1114112 then
    Some [240 + c / 262144; 128 + (c / 4096) mod 64; 128 + (c / 64) mod 64; 128 + c mod 64]
  else None.

(** The code points [encode] accepts: the Unicode scalar values. *)
Definition scalar_value (c : N) : Prop := (c < 55296 ∨ 57344 ≤ c < 1114112)%N.

Definition well_formed (s : str) : Prop := Forall scalar_value s.

#[global] Instance scalar_value_dec c : Decision (scalar_value c).
Proof. unfold scalar_value. apply _. Defined.

#[global] Instance well_formed_dec s : Decision (well_formed s).
Proof. unfold well_formed. apply _. Defined.

Fixpoint encode (s : str) : result (list Z) :=
  match s with
  | [] => Ok []
  | c :: s' =>
      match utf8_char c, encode s' with
      | Some bs, Ok rest => Ok (bs ++ rest)
      | None, _ => Raise UnicodeEncodeError
      | _, Raise e => Raise e
      end
  end.

(** ** [hashlib.sha256]

    SHA-256 as FIPS 180-4 defines it, on a list of bytes; words are integers
    in [0, 2^32). *)

Module SHA256.

Definition w32 (x : Z) : Z := x mod 2 ^ 32.
Definition add32 (x y : Z) : Z := w32 (x + y).
Definition rotr (n x : Z) : Z := Z.lor (Z.shiftr x n) (w32 (Z.shiftl x (32 - n))).

Definition Ch (x y z : Z) : Z := Z.lxor (Z.land x y) (Z.land (Z.lnot x) z).
Definition Maj (x y z : Z) : Z := Z.lxor (Z.lxor (Z.land x y) (Z.land x z)) (Z.land y z).
Definition Sigma0 (x : Z) : Z := Z.lxor (Z.lxor (rotr 2 x) (rotr 13 x)) (rotr 22 x).
Definition Sigma1 (x : Z) : Z := Z.lxor (Z.lxor (rotr 6 x) (rotr 11 x)) (rotr 25 x).
Definition sigma0 (x : Z) : Z := Z.lxor (Z.lxor (rotr 7 x) (rotr 18 x)) (Z.shiftr x 3).
Definition sigma1 (x : Z) : Z := Z.lxor (Z.lxor (rotr 17 x) (rotr 19 x)) (Z.shiftr x 10).

(** The largest [r] with [r ^ e ≤ n], found bit by bit below [2 ^ k]. *)
Fixpoint root_bits (k : nat) (e n r : Z) : Z :=
  match k with
  | O => r
  | S k' =>
      let c := r + 2 ^ Z.of_nat k' in
      root_bits k' e n (if c ^ e <=? n then c else r)
  end.

Definition is_prime (p : Z) : bool :=
  forallb (λ d, negb (p mod Z.of_nat d =? 0)) (seq 2 (Z.to_nat p - 2)).

(** The first 64 primes: those up to 311. *)
Definition primes : list Z := List.filter is_prime (Z.of_nat <$> seq 2 310).

(** The first 32 bits of the fractional part of the [e]-th root of [p]. *)
Definition root_fraction (e p : Z) : Z := root_bits 64 e (p * 2 ^ (32 * e)) 0 mod 2 ^ 32.

(** The round constants: from the cube roots of the first 64 primes. *)
Definition K : list Z := Eval vm_compute in root_fraction 3 <$> primes.

(** The hash value: eight words. *)
Definition hash : Type := Z * Z * Z * Z * Z * Z * Z * Z.

(** The initial hash value: from the square roots of the first 8 primes. *)
Definition H0 : hash :=
  Eval vm_compute in
    match root_fraction 2 <$> take 8 primes with
    | [a; b; c; d; e; f; g; h] => (a, b, c, d, e, f, g, h)
    | _ => (0, 0, 0, 0, 0, 0, 0, 0)
    end.

(** [be_bytes n x]: the [n] low-order bytes of [x], most significant first. *)
Fixpoint be_bytes (n : nat) (x : Z) : list Z :=
  match n with
  | O => []
  | S n' => (x / 256 ^ Z.of_nat n') mod 256 :: be_bytes n' x
  end.

(** The value of a byte string read as a big-endian unsigned integer. *)
Definition be_value (bs : list Z) : Z := foldl (λ acc b, acc * 256 + b) 0 bs.

(** Padding: a 1 bit, zero bits up to 56 modulo 64 bytes, then the message
    length in bits on 64 bits. *)
Definition pad (msg : list Z) : list Z :=
  let len := Z.of_nat (length msg) in
  msg ++ [128] ++ replicate (Z.to_nat ((55 - len) mod 64)) 0 ++ be_bytes 8 ((8 * len) mod 2 ^ 64).

(** The words of a byte string, four bytes each, big-endian. *)
Fixpoint words (n : nat) (bs : list Z) : list Z :=
  match n with
  | O => []
  | S n' => be_value (take 4 bs) :: words n' (drop 4 bs)
  end.

(** The message schedule, most recent word first: [ws] holds
    [W_(t-1), W_(t-2), ..., W_0]. *)
Fixpoint schedule (n : nat) (ws : list Z) : list Z :=
  match n with
  | O => ws
  | S n' =>
      let w := add32 (add32 (add32 (sigma1 (nth 1 ws 0)) (nth 6 ws 0)) (sigma0 (nth 14 ws 0)))
                     (nth 15 ws 0) in
      schedule n' (w :: ws)
  end.

Definition round (s : hash) (kw : Z * Z) : hash :=
  let '(a, b, c, d, e, f, g, h) := s in
  let t1 := add32 (add32 (add32 (add32 h (Sigma1 e)) (Ch e f g)) kw.1) kw.2 in
  let t2 := add32 (Sigma0 a) (Maj a b c) in
  (add32 t1 t2, a, b, c, add32 d t1, e, f, g).

Definition compress (s : hash) (block : list Z) : hash :=
  let w := reverse (schedule 48 (reverse (words 16 block))) in
  let '(a, b, c, d, e, f, g, h) := foldl round s (zip K w) in
  let '(a0, b0, c0, d0, e0, f0, g0, h0) := s in
  (add32 a0 a, add32 b0 b, add32 c0 c, add32 d0 d, add32 e0 e, add32 f0 f, add32 g0 g, add32 h0 h).

Fixpoint blocks (n : nat) (s : hash) (bs : list Z) : hash :=
  match n with
  | O => s
  | S n' => blocks n' (compress s (take 64 bs)) (drop 64 bs)
  end.

(** [hashlib.sha256(data).digest()]: 32 bytes. *)
Definition digest (data : list Z) : list Z :=
  let padded := pad data in
  let '(a, b, c, d, e, f, g, h) := blocks (length padded / 64) H0 padded in
  be_bytes 4 a ++ be_bytes 4 b ++ be_bytes 4 c ++ be_bytes 4 d ++
  be_bytes 4 e ++ be_bytes 4 f ++ be_bytes 4 g ++ be_bytes 4 h.

Definition hex_digit (d : Z) : ascii :=
  ascii_of_N (Z.to_N (if d <? 10 then 48 + d else 87 + d)).

(** [hashlib.sha256(data).hexdigest()]: two lowercase hexadecimal digits
    per byte of the digest. *)
Definition hexdigest (data : list Z) : list ascii :=
  mjoin ((λ b, [hex_digit (b / 16); hex_digit (b mod 16)]) <$> digest data).

End SHA256.

(** ** [int(s, 16)]

    The value of a string of hexadecimal digits; any other character makes
    [int] raise [ValueError].  (Signs, prefixes, underscores and blanks,
    which [int] also accepts, do not occur in a [hexdigest].) *)

Definition hex_value (c : ascii) : option Z :=
  let n := Z.of_N (N_of_ascii c) in
  if (48 <=? n) && (n <=? 57) then Some (n - 48)
  else if (97 <=? n) && (n <=? 102) then Some (n - 87)
  else if (65 <=? n) && (n <=? 70) then Some (n - 55)
  else None.

Fixpoint int16_from (acc : Z) (s : list ascii) : result Z :=
  match s with
  | [] => Ok acc
  | c :: s' =>
      match hex_value c with
      | Some d => int16_from (acc * 16 + d) s'
      | None => Raise ValueError
      end
  end.

Definition int16 (s : list ascii) : result Z :=
  match s with
  | [] => Raise ValueError
  | _ => int16_from 0 s
  end.

(** ** [generate_seed] *)

Definition generate_seed (password : str) : result Z :=
  match encode password with
  | Ok data => int16 (SHA256.hexdigest data)
  | Raise e => Raise e
  end.

(** ** The [random] module

    The program uses three entry points of the module-level generator:
    [random.seed(a)], [random.randint(a, b)] and [random.shuffle(x)].  In
    CPython the last two are written on top of one primitive,
    [Random._randbelow(n)], which returns an integer in [0, n) for [n > 0]
    and advances the generator.  The generator itself (the Mersenne Twister
    and its seeding from an integer) is kept abstract: what the program
    relies on is that seeding resets the whole state as a function of the
    seed alone and that a draw is a function of the state. *)

Class Random := {
  generator : Type;
  (** [random.seed(a)] for an integer [a]: the new state *)
  random_seed : Z → generator;
  (** [Random._randbelow(n)]: the value drawn and the state after it *)
  randbelow : nat → generator → nat * generator;
  randbelow_lt n g : (0 < n)%nat → (fst (randbelow n g) < n)%nat
}.

Section Transforms.
Context {R : Random}.

(** [random.randint(a, b)] is [randrange(a, b + 1)], which for a positive
    width [b + 1 - a] returns [a + _randbelow(width)]. *)
Definition randint (a b : Z) (g : generator) : Z * generator :=
  let '(r, g') := randbelow (Z.to_nat (b + 1 - a)) g in (a + Z.of_nat r, g').

(** [x[i], x[j] = x[j], x[i]] *)
Definition swap {A} (x : list A) (i j : nat) : list A :=
  match x !! i, x !! j with
  | Some xi, Some xj => <[j:=xi]> (<[i:=xj]> x)
  | _, _ => x
  end.

(** [random.shuffle(x)]:
<<
    for i in reversed(range(1, len(x))):
        j = randbelow(i + 1)
        x[i], x[j] = x[j], x[i]
>>
    [shuffle_from i x g] runs the iterations [i, i - 1, ..., 1]. *)
Fixpoint shuffle_from {A} (i : nat) (x : list A) (g : generator) : list A * generator :=
  match i with
  | O => (x, g)
  | S i' =>
      let '(j, g') := randbelow (S i) g in
      shuffle_from i' (swap x i j) g'
  end.

Definition shuffle {A} (x : list A) (g : generator) : list A * generator :=
  shuffle_from (length x - 1) x g.

(** ** Pixels *)

(** A pixel of an RGB image as [getdata()] yields it: a tuple [(r, g, b)]. *)
Definition pixel : Type := Z * Z * Z.

Definition valid_channel (c : Z) : Prop := 0 ≤ c ≤ 255.

Definition valid_pixel (p : pixel) : Prop :=
  let '(r, g, b) := p in valid_channel r ∧ valid_channel g ∧ valid_channel b.

#[global] Instance valid_pixel_dec p : Decision (valid_pixel p).
Proof. destruct p as [[r g] b]. unfold valid_pixel, valid_channel. apply _. Defined.

(** ** The loop of [shift_colors] *)

(** The body of the [for r, g, b in pixels] loop: three draws, then the
    shifted pixel. *)
Definition shift_pixel (reverse : bool) (p : pixel) (g : generator) : pixel * generator :=
  let '(r, gr, b) := p in
  let '(shift_r, g1) := randint 0 255 g in
  let '(shift_g, g2) := randint 0 255 g1 in
  let '(shift_b, g3) := randint 0 255 g2 in
  if reverse
  then (((r - shift_r) mod 256, (gr - shift_g) mod 256, (b - shift_b) mod 256), g3)
  else (((r + shift_r) mod 256, (gr + shift_g) mod 256, (b + shift_b) mod 256), g3).

(** The loop: the pixels are visited in order and each result is appended
    to [shifted_pixels]. *)
Fixpoint shift_loop (reverse : bool) (pixels : list pixel) (g : generator)
  : list pixel * generator :=
  match pixels with
  | [] => ([], g)
  | p :: rest =>
      let '(p', g1) := shift_pixel reverse p g in
      let '(shifted_pixels, g2) := shift_loop reverse rest g1 in
      (p' :: shifted_pixels, g2)
  end.

End Transforms.

(** ** [PIL.Image]

    An image object: its mode, its size and its pixel data in row-major
    order.  Only RGB images occur ([load_image] and [load_from_url] convert
    what they open), so the data are [pixel]s. *)

Record Image : Type := mkImage {
  mode : string;
  width : nat;
  height : nat;
  data : list pixel
}.

#[global] Instance Image_eq_dec : EqDecision Image.
Proof. solve_decision. Defined.

(** The well-formed images: as many pixels as the size says, 8 bits per
    channel. *)
Definition wf_image (img : Image) : Prop :=
  length (data img) = (width img * height img)%nat ∧ Forall valid_pixel (data img).

#[global] Instance wf_image_dec img : Decision (wf_image img).
Proof. unfold wf_image. apply _. Defined.

(** [Image.new(mode, (width, height))]: a black image. *)
Definition Image_new (mode : string) (width height : nat) : Image :=
  mkImage mode width height (replicate (width * height) (0, 0, 0)).

(** A channel value as [putdata] stores it in an 8-bit band. *)
Definition clip8 (c : Z) : Z := Z.max 0 (Z.min 255 c).

Definition clip_pixel (p : pixel) : pixel :=
  let '(r, g, b) := p in (clip8 r, clip8 g, clip8 b).

(** [img.putdata(seq)]: the entries are written from the upper left corner
    on, one pixel each; pixels past the end of [seq] keep their value, and
    more entries than pixels raise [TypeError]. *)
Definition Image_putdata (img : Image) (seq : list pixel) : result Image :=
  if decide (length seq ≤ width img * height img)%nat
  then Ok (mkImage (mode img) (width img) (height img)
             ((clip_pixel <$> seq) ++ drop (length seq) (data img)))
  else Raise TypeError.

(** [Image.thumbnail((500, 500))] leaves an image that fits the box as it
    is; a larger one is resampled in place to a size inside the box that
    keeps its aspect ratio.  The resampling filter is kept abstract. *)
Class Resample := {
  resample : Image → Image;
  resample_fits img : (width (resample img) ≤ 500)%nat ∧ (height (resample img) ≤ 500)%nat;
  resample_wf img : wf_image img → wf_image (resample img)
}.

Definition fits (img : Image) : Prop := (width img ≤ 500)%nat ∧ (height img ≤ 500)%nat.

#[global] Instance fits_dec img : Decision (fits img).
Proof. unfold fits. apply _. Defined.

Definition Image_thumbnail `{Resample} (img : Image) : Image :=
  if decide (fits img) then img else resample img.

(** ** The state of the program

    Images are objects: the application and the functions hold references
    to them, and [putdata] and [thumbnail] change the object referred to.
    The state is the object store, the module-level generator of [random],
    the warnings shown so far, and the attributes and widgets of the one
    [PixelShufflerApp]. *)

Definition loc : Type := nat.

Section Program.
Context {R : Random} {P : Resample}.

Record State : Type := mkState {
  heap : gmap loc Image;
  rng : generator;
  (** [messagebox.showwarning(title, message)] calls, latest first *)
  warnings : list (string * string);
  (** [self.image], [self.processed_image]: [None] or an image object *)
  image : option loc;
  processed_image : option loc;
  (** what [self.tk_image] shows: a copy taken by [ImageTk.PhotoImage] *)
  tk_image : option Image;
  (** [self.password_entry.get()] and [self.color_shift_var.get()] *)
  password_entry : str;
  color_shift_var : bool
}.

Definition set_heap (h : gmap loc Image) (σ : State) : State :=
  mkState h (rng σ) (warnings σ) (image σ) (processed_image σ) (tk_image σ)
    (password_entry σ) (color_shift_var σ).
Definition set_rng (g : generator) (σ : State) : State :=
  mkState (heap σ) g (warnings σ) (image σ) (processed_image σ) (tk_image σ)
    (password_entry σ) (color_shift_var σ).
Definition set_warnings (w : list (string * string)) (σ : State) : State :=
  mkState (heap σ) (rng σ) w (image σ) (processed_image σ) (tk_image σ)
    (password_entry σ) (color_shift_var σ).
Definition set_image (l : option loc) (σ : State) : State :=
  mkState (heap σ) (rng σ) (warnings σ) l (processed_image σ) (tk_image σ)
    (password_entry σ) (color_shift_var σ).
Definition set_processed_image (l : option loc) (σ : State) : State :=
  mkState (heap σ) (rng σ) (warnings σ) (image σ) l (tk_image σ)
    (password_entry σ) (color_shift_var σ).
Definition set_tk_image (i : option Image) (σ : State) : State :=
  mkState (heap σ) (rng σ) (warnings σ) (image σ) (processed_image σ) i
    (password_entry σ) (color_shift_var σ).
(** the user types a password, or ticks the checkbox *)
Definition set_password_entry (s : str) (σ : State) : State :=
  mkState (heap σ) (rng σ) (warnings σ) (image σ) (processed_image σ) (tk_image σ)
    s (color_shift_var σ).
Definition set_color_shift_var (b : bool) (σ : State) : State :=
  mkState (heap σ) (rng σ) (warnings σ) (image σ) (processed_image σ) (tk_image σ)
    (password_entry σ) b.

(** The state [__init__] leaves, on a generator in state [g]: no image, an
    empty password entry, the checkbox ticked. *)
Definition init (g : generator) : State := mkState ∅ g [] None None None [] true.

(** Computations: a state transformer that returns a value or raises. A
    raised exception keeps the state reached so far. *)
Definition M (A : Type) : Type := State → result A * State.

Definition ret {A} (a : A) : M A := λ σ, (Ok a, σ).
Definition raise {A} (e : exn) : M A := λ σ, (Raise e, σ).
Definition bind {A B} (m : M A) (k : A → M B) : M B :=
  λ σ, match m σ with
       | (Ok a, σ') => k a σ'
       | (Raise e, σ') => (Raise e, σ')
       end.
Definition gets {A} (f : State → A) : M A := λ σ, (Ok (f σ), σ).
Definition lift {A} (r : result A) : M A := λ σ, (r, σ).
(** a function on the module generator, run on [rng] *)
Definition on_rng {A} (f : generator → A * generator) : M A :=
  λ σ, let '(a, g) := f (rng σ) in (Ok a, set_rng g σ).
(** [random.seed(a)] *)
Definition seed_rng (a : Z) : M unit := λ σ, (Ok (), set_rng (random_seed a) σ).

#[global] Instance M_ret : MRet M := @ret.
#[global] Instance M_bind : MBind M := λ A B k m, bind m k.

(** [if b: m], with no [else] *)
Definition when (b : bool) (m : M unit) : M unit := if b then m else ret ().

(** an assignment to an attribute or any other change of the state *)
Definition modify (f : State → State) : M unit := λ σ, (Ok (), f σ).

(** *** Object store *)

(** The object behind a reference.  Python has no dangling references; the
    store gives [None] only outside the states the program can reach, and
    the model then raises [TypeError]. *)
Definition deref (l : loc) : M Image :=
  λ σ, match heap σ !! l with
       | Some img => (Ok img, σ)
       | None => (Raise TypeError, σ)
       end.

Definition store (l : loc) (img : Image) : M unit :=
  modify (λ σ, set_heap (<[l:=img]> (heap σ)) σ).

(** A new object: a reference no object has yet. *)
Definition alloc (img : Image) : M loc :=
  λ σ, let l := fresh (dom (heap σ)) in (Ok l, set_heap (<[l:=img]> (heap σ)) σ).

(** [list(image.getdata())] *)
Definition getdata (image : loc) : M (list pixel) :=
  img ← deref image; ret (data img).

(** [image.putdata(seq)] *)
Definition putdata (image : loc) (seq : list pixel) : M unit :=
  img ← deref image;
  img' ← lift (Image_putdata img seq);
  store image img'.

(** [image.thumbnail((500, 500))] *)
Definition thumbnail (image : loc) : M unit :=
  img ← deref image; store image (Image_thumbnail img).

(** [messagebox.showwarning(title, message)] *)
Definition showwarning (title message : string) : M unit :=
  modify (λ σ, set_warnings ((title, message) :: warnings σ) σ).

(** *** List indexing *)

(** [l[i]] *)
Definition getitem {A} (l : list A) (i : nat) : result A :=
  match l !! i with
  | Some x => Ok x
  | None => Raise IndexError
  end.

(** [l[i] = x] *)
Definition setitem {A} (l : list A) (i : nat) (x : A) : result (list A) :=
  if decide (i < length l)%nat then Ok (<[i:=x]> l) else Raise IndexError.

(** [[pixels[i] for i in indices]] *)
Fixpoint comprehension {A} (pixels : list A) (indices : list nat) : result (list A) :=
  match indices with
  | [] => Ok []
  | i :: rest =>
      match getitem pixels i, comprehension pixels rest with
      | Ok x, Ok xs => Ok (x :: xs)
      | Raise e, _ => Raise e
      | _, Raise e => Raise e
      end
  end.

(** [enumerate(l)] *)
Definition enumerate {A} (l : list A) : list (nat * A) := zip (seq 0 (length l)) l.

(** The loop of [shuffle_pixels] that inverts the index list:
<<
    for i, shuffled_index in enumerate(indices):
        reverse_indices[shuffled_index] = i
>> *)
Fixpoint reverse_loop (enum : list (nat * nat)) (reverse_indices : list nat)
  : result (list nat) :=
  match enum with
  | [] => Ok reverse_indices
  | (i, shuffled_index) :: rest =>
      match setitem reverse_indices shuffled_index i with
      | Ok reverse_indices' => reverse_loop rest reverse_indices'
      | Raise e => Raise e
      end
  end.

(** ** [shift_colors] *)

Definition shift_colors (pixels : list pixel) (seed : Z) (reverse : bool) : M (list pixel) :=
  seed_rng seed;;
  on_rng (shift_loop reverse pixels).

(** ** [shuffle_pixels] *)

Definition shuffle_pixels (image : loc) (seed : Z) (reverse : bool) : M loc :=
  img ← deref image;
  let '(width, height) := (width img, height img) in
  let pixels := data img in
  let total_pixels := length pixels in
  seed_rng seed;;
  indices ← on_rng (shuffle (seq 0 total_pixels));
  indices ← lift (if reverse
                      then reverse_loop (enumerate indices) (replicate total_pixels 0%nat)
                      else Ok indices);
  shuffled_pixels ← lift (comprehension pixels indices);
  shuffled_image ← alloc (Image_new (mode img) width height);
  putdata shuffled_image shuffled_pixels;;
  ret shuffled_image.

(** ** [PixelShufflerApp] *)

(** [display_image(image)]: the canvas shows a copy of the image after
    [thumbnail]. *)
Definition display_image (image : loc) : M unit :=
  modify (set_processed_image (Some image));;
  thumbnail image;;
  img ← deref image;
  modify (set_tk_image (Some img)).

Definition encrypt_image : M unit :=
  self_image ← gets image;
  match self_image with
  | None => showwarning "Warning" "No image loaded!"
  | Some self_image =>
      password ← gets password_entry;
      match password with
      | [] => showwarning "Warning" "Password is required!"
      | _ =>
          seed ← lift (generate_seed password);
          color_shift ← gets color_shift_var;
          when color_shift (
            pixels ← getdata self_image;
            shifted_pixels ← shift_colors pixels seed false;
            putdata self_image shifted_pixels);;
          encrypted_image ← shuffle_pixels self_image seed false;
          display_image encrypted_image
      end
  end.

Definition decrypt_image : M unit :=
  self_image ← gets image;
  match self_image with
  | None => showwarning "Warning" "No image loaded!"
  | Some self_image =>
      password ← gets password_entry;
      match password with
      | [] => showwarning "Warning" "Password is required!"
      | _ =>
          seed ← lift (generate_seed password);
          unshuffled_image ← shuffle_pixels self_image seed true;
          color_shift ← gets color_shift_var;
          when color_shift (
            pixels ← getdata unshuffled_image;
            unshifted_pixels ← shift_colors pixels seed true;
            putdata unshuffled_image unshifted_pixels);;
          display_image unshuffled_image
      end
  end.

(** [load_image] and [load_from_url] once the file or the URL has been
    opened: [opened] is the result of [Image.open(...).convert("RGB")]. *)
Definition load_image (opened : Image) : M unit :=
  l ← alloc opened;
  modify (set_image (Some l));;
  display_image l.

(** *** The main loop

    What the user does between two callbacks: open an image, type in the
    password entry, tick or untick the checkbox, press Encrypt or Decrypt.
    An exception that escapes a callback is reported by Tk and the loop
    goes on with the state the callback left. *)
Inductive event : Type :=
  | Load (opened : Image)
  | Type_password (s : str)
  | Tick (b : bool)
  | Press_encrypt
  | Press_decrypt.

Definition callback (e : event) : M unit :=
  match e with
  | Load opened => load_image opened
  | Type_password s => modify (set_password_entry s)
  | Tick b => modify (set_color_shift_var b)
  | Press_encrypt => encrypt_image
  | Press_decrypt => decrypt_image
  end.

Fixpoint mainloop (events : list event) (σ : State) : State :=
  match events with
  | [] => σ
  | e :: events' => mainloop events' (callback e σ).2
  end.

(** The images the loop is fed are well formed. *)
Definition wf_event (e : event) : Prop :=
  match e with
  | Load opened => wf_image opened
  | _ => True
  end.

(** The invariant of the loop: [self.image], when set, is a well-formed
    image that fits the box of the canvas. *)
Definition loaded_ok (σ : State) : Prop :=
  ∀ l, image σ = Some l → ∃ img, heap σ !! l = Some img ∧ wf_image img ∧ fits img.

End Program.

(** ** The stages as the specification words them

    The specification describes the transforms as functions of the pixel
    buffer and the seed, each drawing from a generator of its own that is
    initialised with the seed.  These definitions follow its wording; the
    properties below compare the program with them. *)

Module Spec.
Section Spec.
Context {R : Random}.

(** The shift triples of the first [n] pixel positions: three bounded
    draws per position, in order, from the generator in state [g]. *)
Fixpoint shift_values_from (n : nat) (g : generator) : list (Z * Z * Z) :=
  match n with
  | O => []
  | S n' =>
      let '(shift_r, g1) := randint 0 255 g in
      let '(shift_g, g2) := randint 0 255 g1 in
      let '(shift_b, g3) := randint 0 255 g2 in
      (shift_r, shift_g, shift_b) :: shift_values_from n' g3
  end.

Definition shift_values (seed : Z) (n : nat) : list (Z * Z * Z) :=
  shift_values_from n (random_seed seed).

(** Forward: [new_channel = (old_channel + shift) mod 256]. *)
Definition add_shift (p : pixel) (s : Z * Z * Z) : pixel :=
  let '(r, g, b) := p in let '(shift_r, shift_g, shift_b) := s in
  ((r + shift_r) mod 256, (g + shift_g) mod 256, (b + shift_b) mod 256).

(** Reverse: [new_channel = (old_channel - shift) mod 256]. *)
Definition sub_shift (p : pixel) (s : Z * Z * Z) : pixel :=
  let '(r, g, b) := p in let '(shift_r, shift_g, shift_b) := s in
  ((r - shift_r) mod 256, (g - shift_g) mod 256, (b - shift_b) mod 256).

Definition apply_shift (pixels : list pixel) (seed : Z) : list pixel :=
  zip_with add_shift pixels (shift_values seed (length pixels)).

Definition reverse_shift (pixels : list pixel) (seed : Z) : list pixel :=
  zip_with sub_shift pixels (shift_values seed (length pixels)).

(** The permutation of [0, n) drawn from a generator initialised with the
    seed, as the list [π(0), π(1), ..., π(n-1)]. *)
Definition permutation (seed : Z) (n : nat) : list nat :=
  (shuffle (seq 0 n) (random_seed seed)).1.

(** [π⁻¹(j)]: the position at which [j] occurs in [π]. *)
Definition inverse_at (π : list nat) (j : nat) : nat :=
  default 0%nat (fst <$> list_find (λ v, v = j) π).

(** Forward: [output[i] = input[π(i)]]. *)
Definition shuffle (pixels : list pixel) (seed : Z) : list pixel :=
  (λ i, pixels !!! i) <$> permutation seed (length pixels).

(** Reverse: [output[π(i)] = input[i]], that is
    [output[j] = input[π⁻¹(j)]]. *)
Definition unshuffle (pixels : list pixel) (seed : Z) : list pixel :=
  (λ j, pixels !!! inverse_at (permutation seed (length pixels)) j)
    <$> seq 0 (length pixels).

(** The two operations of the orchestrator, on the pixel buffer. *)
Definition Encrypt (pixels : list pixel) (seed : Z) (shift_enabled : bool) : list pixel :=
  shuffle (if shift_enabled then apply_shift pixels seed else pixels) seed.

Definition Decrypt (pixels : list pixel) (seed : Z) (shift_enabled : bool) : list pixel :=
  let unshuffled := unshuffle pixels seed in
  if shift_enabled then reverse_shift unshuffled seed else unshuffled.

End Spec.
End Spec.

(** ** The images the functions build *)

Section Images.
Context {R : Random}.

(** The image [shuffle_pixels] builds from [img]. *)
Definition shuffled_image (img : Image) (seed : Z) (reverse : bool) : Image :=
  mkImage (mode img) (width img) (height img)
    (if reverse then Spec.unshuffle (data img) seed else Spec.shuffle (data img) seed).

(** The image [encrypt_image] shuffles: [self.image] after the optional
    shift. *)
Definition shifted_image (img : Image) (seed : Z) (shift : bool) : Image :=
  if shift
  then mkImage (mode img) (width img) (height img) (Spec.apply_shift (data img) seed)
  else img.

(** The image [decrypt_image] displays: the unshuffled image after the
    optional reverse shift. *)
Definition unshifted_image (img : Image) (seed : Z) (shift : bool) : Image :=
  if shift
  then mkImage (mode img) (width img) (height img) (Spec.reverse_shift (data img) seed)
  else img.

End Images.

(** ** Passwords by number *)

(** The password of [n] ASCII characters that spells [i] in base 128, least
    significant digit first, and the number a password spells. *)
Fixpoint digits (n : nat) (i : Z) : str :=
  match n with
  | O => []
  | S n' => Z.to_N (i mod 128) :: digits n' (i / 128)
  end.

Definition undigits (s : str) : Z := foldr (λ c acc, Z.of_N c + 128 * acc) 0 s.

(** ** A run of the program

    The image and the password of the specification's concrete scenario, in
    an application that has just loaded the image, with a linear
    congruential generator for [random] and a filter that blanks what it
    resizes. *)

Definition blank (img : Image) : Image :=
  Image_new (mode img) (Nat.min (width img) 500) (Nat.min (height img) 500).

Definition sample_image : Image :=
  mkImage "RGB" 2 2 [(10, 20, 30); (40, 50, 60); (70, 80, 90); (100, 110, 120)].

Definition sample_password : str := str_of_string "test123".

Definition lcg_next (g : Z) : Z := (6364136223846793005 * g + 1442695040888963407) mod 2 ^ 64.

Definition lcg_randbelow (n : nat) (g : Z) : nat * Z :=
  let g' := lcg_next g in (Z.to_nat ((g' / 2 ^ 33) mod Z.of_nat n), g').

Lemma lcg_randbelow_lt n g : (0 < n)%nat → (fst (lcg_randbelow n g) < n)%nat.
Proof.
  intros Hn. unfold lcg_randbelow. cbn [fst].
  pose proof (Z.mod_pos_bound (lcg_next g / 2 ^ 33) (Z.of_nat n)). lia.
Qed.

Definition lcg : Random :=
  {| generator := Z; random_seed := λ a, Z.abs a;
     randbelow := lcg_randbelow; randbelow_lt := lcg_randbelow_lt |}.

Lemma blank_fits img : (width (blank img) ≤ 500)%nat ∧ (height (blank img) ≤ 500)%nat.
Proof. cbn. lia. Qed.

Lemma blank_wf img : wf_image img → wf_image (blank img).
Proof.
  intros _. split; cbn; [by rewrite length_replicate|].
  apply Forall_replicate. unfold valid_pixel, valid_channel. lia.
Qed.

Definition blank_filter : Resample :=
  {| resample := blank; resample_fits := blank_fits; resample_wf := blank_wf |}.

(** The application after the sample image is loaded, before and after the
    password is typed in. *)
Definition loaded_state : @State lcg :=
  @mainloop lcg blank_filter [Load sample_image] (@init lcg 0).

Definition sample_state : @State lcg :=
  @mainloop lcg blank_filter [Type_password sample_password] loaded_state.

(** An image of another size and pixel count, and the application after it
    is loaded and the password typed in. *)
Definition other_image : Image :=
  mkImage "RGB" 3 1 [(1, 2, 3); (4, 5, 6); (7, 8, 9)].

Definition other_state : @State lcg :=
  @mainloop lcg blank_filter [Load other_image; Type_password sample_password] (@init lcg 0).

(** A pixel with each channel reduced modulo 256. *)
Definition wrap_pixel (p : pixel) : pixel :=
  let '(r, g, b) := p in (r mod 256, g mod 256, b mod 256).

(** ** The dialogs and the files

    [load_from_url] and [save_image] also show error and information
    boxes and write files.  The desktop is the application together with
    the boxes shown and the calls of [Image.save] that returned. *)

Section Desktop.
Context {R : Random} {P : Resample}.

Record Desktop : Type := mkDesktop {
  app_state : State;
  (** [messagebox.showinfo(title, message)] calls, latest first *)
  infos : list (string * string);
  (** [messagebox.showerror(title, message)] calls, latest first *)
  errors : list (string * string);
  (** the path and the pixels of each [Image.save] that returned, latest first *)
  saves : list (string * Image)
}.

Definition set_app_state (σ : State) (d : Desktop) : Desktop :=
  mkDesktop σ (infos d) (errors d) (saves d).

(** A computation of the application, run on the desktop. *)
Definition in_app {A} (m : M A) (d : Desktop) : result A * Desktop :=
  let '(r, σ) := m (app_state d) in (r, set_app_state σ d).

(** The text of an exception in an error box. *)
Definition exn_text (e : exn) : string :=
  match e with
  | UnicodeEncodeError => "UnicodeEncodeError"
  | ValueError => "ValueError"
  | IndexError => "IndexError"
  | TypeError => "TypeError"
  end.

(** [messagebox.showerror(title, message)] and
    [messagebox.showinfo(title, message)] *)
Definition showerror (title message : string) (d : Desktop) : Desktop :=
  mkDesktop (app_state d) (infos d) ((title, message) :: errors d) (saves d).

Definition showinfo (title message : string) (d : Desktop) : Desktop :=
  mkDesktop (app_state d) ((title, message) :: infos d) (errors d) (saves d).

(** [load_image]: [file_path] is what [askopenfilename] returns, the empty
    string when the dialog is cancelled, and [opened] the result of
    [Image.open(file_path).convert("RGB")]. *)
Definition load_image_dialog (file_path : string) (opened : Image) : M unit :=
  if decide (file_path = "") then mret () else load_image opened.

(** [load_from_url]: [url] is what [askstring] returns, [None] when the
    dialog is cancelled; [fetched] is the image that [requests.get],
    [raise_for_status], [Image.open] and [convert("RGB")] produce, or the
    text of the exception one of them raises.  Whatever is raised inside
    the [try] ends in an error box. *)
Definition load_from_url (url : option string) (fetched : Image + string) (d : Desktop)
  : result unit * Desktop :=
  match url with
  | None => (Ok (), d)
  | Some url =>
      if decide (url = "") then (Ok (), d)
      else
        match fetched with
        | inr e => (Ok (), showerror "Error" ("Failed to load image from URL: " +:+ e) d)
        | inl opened =>
            match load_image opened (app_state d) with
            | (Ok _, σ) => (Ok (), set_app_state σ d)
            | (Raise e, σ) =>
                (Ok (), showerror "Error" ("Failed to load image from URL: " +:+ exn_text e)
                          (set_app_state σ d))
            end
        end
  end.

(** [save_image]: [file_path] is what [asksaveasfilename] returns, the
    empty string when the dialog is cancelled, and [written] tells whether
    [Image.save(file_path)] returns or raises (an extension it does not
    know, a file it cannot write). *)
Definition save_image (file_path : string) (written : result unit) (d : Desktop)
  : result unit * Desktop :=
  match processed_image (app_state d) with
  | None => in_app (showwarning "Warning" "No image to save!") d
  | Some l =>
      if decide (file_path = "") then (Ok (), d)
      else
        match heap (app_state d) !! l, written with
        | None, _ => (Raise TypeError, d)
        | Some img, Raise e => (Raise e, d)
        | Some img, Ok _ =>
            (Ok (),
             showinfo "Saved" ("Image saved to " +:+ file_path)
               (mkDesktop (app_state d) (infos d) (errors d) ((file_path, img) :: saves d)))
        end
  end.

(** What the user does on the desktop: the events of the application, the
    two loading dialogs and the Save button. *)
Inductive action : Type :=
  | Do (e : event)
  | Open_file (file_path : string) (opened : Image)
  | Open_url (url : option string) (fetched : Image + string)
  | Press_save (file_path : string) (written : result unit).

Definition button (a : action) (d : Desktop) : result unit * Desktop :=
  match a with
  | Do e => in_app (callback e) d
  | Open_file file_path opened => in_app (load_image_dialog file_path opened) d
  | Open_url url fetched => load_from_url url fetched d
  | Press_save file_path written => save_image file_path written d
  end.

Fixpoint session (actions : list action) (d : Desktop) : Desktop :=
  match actions with
  | [] => d
  | a :: actions' => session actions' (button a d).2
  end.

(** The desktop when the program starts. *)
Definition start (g : generator) : Desktop := mkDesktop (init g) [] [] [].

(** The images the desktop is fed are well formed. *)
Definition wf_action (a : action) : Prop :=
  match a with
  | Do e => wf_event e
  | Open_file _ opened => wf_image opened
  | Open_url _ (inl opened) => wf_image opened
  | _ => True
  end.

#[global] Instance wf_action_dec a : Decision (wf_action a).
Proof. destruct a as [[]| |? []|]; cbn; apply _. Defined.

(** The canvas shows the pixels [self.processed_image] holds, and there is
    a processed image as soon as there is an image. *)
Definition canvas_ok (σ : State) : Prop :=
  tk_image σ = (l ← processed_image σ; heap σ !! l)
  ∧ (is_Some (image σ) → is_Some (tk_image σ)).

End Desktop.

(** ** More runs

    The application with a password that holds a lone surrogate, and a
    short session on the desktop. *)

Definition surrogate_state : @State lcg :=
  @mainloop lcg blank_filter [Type_password [55296%N]] loaded_state.

Definition sample_session : list action :=
  [Do (Load sample_image); Open_url (Some "http://localhost/x.png") (inr "404");
   Do (Type_password sample_password); Do Press_encrypt; Press_save "out.png" (Ok ())].

(** * Properties *)

(** ** The generator and the two library draws *)

Section RandomFacts.
Context {R : Random}.

Lemma randint_range a b g : a ≤ b → a ≤ (randint a b g).1 ≤ b.
Proof.
  intros Hab. unfold randint.
  pose proof (randbelow_lt (Z.to_nat (b + 1 - a)) g) as Hlt.
  destruct (randbelow _ g) as [r g']. cbn [fst] in *. lia.
Qed.

Lemma swap_Permutation {A} (x : list A) i j : swap x i j ≡ₚ x.
Proof.
  unfold swap.
  destruct (x !! i) as [xi|] eqn:Hi; [|done].
  destruct (x !! j) as [xj|] eqn:Hj; [|done].
  by apply Permutation_insert_swap.
Qed.

Lemma shuffle_from_Permutation {A} i (x : list A) g : (shuffle_from i x g).1 ≡ₚ x.
Proof.
  revert x g. induction i as [|i IH]; intros x g; [done|].
  cbn [shuffle_from]. destruct (randbelow (S (S i)) g) as [j g'].
  rewrite IH. apply swap_Permutation.
Qed.

Lemma shuffle_Permutation {A} (x : list A) g : (shuffle x g).1 ≡ₚ x.
Proof. apply shuffle_from_Permutation. Qed.

(** A list of at most one element is shuffled without a draw. *)
Lemma shuffle_short {A} (x : list A) g : (length x ≤ 1)%nat → shuffle x g = (x, g).
Proof.
  intros Hx. unfold shuffle.
  by replace (length x - 1)%nat with 0%nat by lia.
Qed.

End RandomFacts.

(** ** List indexing *)

Section Indexing.
Context {A : Type}.
Implicit Types (l pixels : list A) (indices : list nat).

Lemma comprehension_Ok pixels indices :
  Forall (λ i, i < length pixels)%nat indices →
  ∃ out, comprehension pixels indices = Ok out
         ∧ length out = length indices
         ∧ ∀ k i, indices !! k = Some i → out !! k = pixels !! i.
Proof.
  induction 1 as [|i indices Hi _ (out & Hout & Hlen & Hlook)].
  { exists []. by repeat split. }
  apply lookup_lt_is_Some_2 in Hi as [x Hx].
  exists (x :: out). cbn [comprehension]. unfold getitem. rewrite Hx, Hout.
  repeat split; [cbn; by rewrite Hlen|].
  intros [|k] i'; cbn; [by intros [= <-]|apply Hlook].
Qed.

End Indexing.

Lemma reverse_loop_Ok (l : list nat) (k : nat) (acc : list nat) :
  NoDup l → Forall (λ v, v < length acc)%nat l →
  ∃ rev, reverse_loop (zip (seq k (length l)) l) acc = Ok rev
         ∧ length rev = length acc
         ∧ (∀ i v, l !! i = Some v → rev !! v = Some (k + i)%nat)
         ∧ (∀ v, v ∉ l → rev !! v = acc !! v).
Proof.
  revert k acc. induction l as [|v l IH]; intros k acc Hnd Hlt.
  { exists acc. by repeat split. }
  apply NoDup_cons in Hnd as [Hv Hnd]. apply Forall_cons in Hlt as [Hvlt Hlt].
  cbn [length seq zip zip_with reverse_loop]. unfold setitem.
  rewrite decide_True by done.
  destruct (IH (S k) (<[v:=k]> acc) Hnd) as (rev & Hrev & Hlen & Hin & Hout).
  { by rewrite length_insert. }
  exists rev. rewrite Hrev, Hlen, length_insert. repeat split.
  - intros [|i] w; cbn.
    + intros [= <-]. rewrite Hout by done. rewrite list_lookup_insert_eq by done.
      f_equal; lia.
    + intros Hw. rewrite (Hin i w Hw). f_equal; lia.
  - intros w Hw. apply not_elem_of_cons in Hw as [Hne Hw].
    rewrite Hout by done. by rewrite list_lookup_insert_ne.
Qed.

(** ** The channel shift *)

Section ShiftFacts.
Context {R : Random}.

Lemma shift_loop_fst reverse pixels g :
  (shift_loop reverse pixels g).1 =
  zip_with (if reverse then Spec.sub_shift else Spec.add_shift) pixels
    (Spec.shift_values_from (length pixels) g).
Proof.
  revert g. induction pixels as [|[[r gr] b] pixels IH]; intros g; [done|].
  cbn [shift_loop length Spec.shift_values_from]. unfold shift_pixel.
  destruct (randint 0 255 g) as [sr g1].
  destruct (randint 0 255 g1) as [sg g2].
  destruct (randint 0 255 g2) as [sb g3].
  specialize (IH g3).
  destruct reverse; destruct (shift_loop _ pixels g3) as [out g4];
    cbn [fst zip_with] in *; by rewrite IH.
Qed.

Lemma shift_values_from_length n g : length (Spec.shift_values_from n g) = n.
Proof.
  revert g. induction n as [|n IH]; intros g; [done|]. cbn [Spec.shift_values_from].
  destruct (randint 0 255 g) as [sr g1].
  destruct (randint 0 255 g1) as [sg g2].
  destruct (randint 0 255 g2) as [sb g3]. cbn. by rewrite IH.
Qed.

Lemma shift_values_from_range n g :
  Forall (λ '(sr, sg, sb), valid_channel sr ∧ valid_channel sg ∧ valid_channel sb)
    (Spec.shift_values_from n g).
Proof.
  revert g. induction n as [|n IH]; intros g; [by constructor|].
  cbn [Spec.shift_values_from].
  pose proof (randint_range 0 255 g) as H1.
  destruct (randint 0 255 g) as [sr g1].
  pose proof (randint_range 0 255 g1) as H2.
  destruct (randint 0 255 g1) as [sg g2].
  pose proof (randint_range 0 255 g2) as H3.
  destruct (randint 0 255 g2) as [sb g3].
  constructor; [|apply IH]. unfold valid_channel. cbn [fst] in *. lia.
Qed.

Lemma sub_add_shift p s : valid_pixel p → Spec.sub_shift (Spec.add_shift p s) s = p.
Proof.
  destruct p as [[r g] b], s as [[sr sg] sb]. unfold valid_pixel, valid_channel.
  intros (Hr & Hg & Hb). cbn.
  rewrite !Zminus_mod_idemp_l.
  replace (r + sr - sr) with r by lia.
  replace (g + sg - sg) with g by lia.
  replace (b + sb - sb) with b by lia.
  by rewrite !Z.mod_small by lia.
Qed.

Lemma add_shift_valid p s : valid_pixel (Spec.add_shift p s).
Proof.
  destruct p as [[r g] b], s as [[sr sg] sb]. unfold valid_pixel, valid_channel. cbn.
  pose proof (Z.mod_pos_bound (r + sr) 256).
  pose proof (Z.mod_pos_bound (g + sg) 256).
  pose proof (Z.mod_pos_bound (b + sb) 256). lia.
Qed.

Lemma sub_shift_valid p s : valid_pixel (Spec.sub_shift p s).
Proof.
  destruct p as [[r g] b], s as [[sr sg] sb]. unfold valid_pixel, valid_channel. cbn.
  pose proof (Z.mod_pos_bound (r - sr) 256).
  pose proof (Z.mod_pos_bound (g - sg) 256).
  pose proof (Z.mod_pos_bound (b - sb) 256). lia.
Qed.

Lemma shift_loop_spec reverse pixels seed :
  (shift_loop reverse pixels (random_seed seed)).1 =
  if reverse then Spec.reverse_shift pixels seed else Spec.apply_shift pixels seed.
Proof. rewrite shift_loop_fst. by destruct reverse. Qed.

Lemma apply_shift_length pixels seed : length (Spec.apply_shift pixels seed) = length pixels.
Proof.
  unfold Spec.apply_shift, Spec.shift_values.
  rewrite length_zip_with, shift_values_from_length. lia.
Qed.

Lemma reverse_shift_length pixels seed : length (Spec.reverse_shift pixels seed) = length pixels.
Proof.
  unfold Spec.reverse_shift, Spec.shift_values.
  rewrite length_zip_with, shift_values_from_length. lia.
Qed.

Lemma zip_with_Forall {A B C} (f : A → B → C) (Q : C → Prop) l k :
  (∀ a b, Q (f a b)) → Forall Q (zip_with f l k).
Proof.
  intros Hf. revert k. induction l as [|a l IH]; intros [|b k]; cbn; constructor; auto.
Qed.

Lemma apply_shift_valid pixels seed : Forall valid_pixel (Spec.apply_shift pixels seed).
Proof. apply zip_with_Forall, add_shift_valid. Qed.

Lemma reverse_shift_valid pixels seed : Forall valid_pixel (Spec.reverse_shift pixels seed).
Proof. apply zip_with_Forall, sub_shift_valid. Qed.

Lemma reverse_apply_shift pixels seed :
  Forall valid_pixel pixels → Spec.reverse_shift (Spec.apply_shift pixels seed) seed = pixels.
Proof.
  intros Hv. unfold Spec.reverse_shift. rewrite apply_shift_length.
  unfold Spec.apply_shift, Spec.shift_values.
  generalize (random_seed seed). induction Hv as [|p pixels Hp Hv IH]; intros g; [done|].
  cbn [length Spec.shift_values_from].
  destruct (randint 0 255 g) as [sr g1].
  destruct (randint 0 255 g1) as [sg g2].
  destruct (randint 0 255 g2) as [sb g3].
  cbn [zip_with]. rewrite sub_add_shift by done. f_equal. apply IH.
Qed.

End ShiftFacts.

(** ** The permutation *)

Section PermutationFacts.
Context {R : Random}.

Lemma permutation_Permutation seed n : Spec.permutation seed n ≡ₚ seq 0 n.
Proof. apply shuffle_Permutation. Qed.

Lemma permutation_length seed n : length (Spec.permutation seed n) = n.
Proof. by rewrite permutation_Permutation, length_seq. Qed.

Lemma permutation_NoDup seed n : NoDup (Spec.permutation seed n).
Proof. rewrite permutation_Permutation. apply NoDup_seq. Qed.

Lemma permutation_elem_of seed n j : (j < n)%nat → j ∈ Spec.permutation seed n.
Proof.
  intros Hj. rewrite permutation_Permutation. apply elem_of_seq. lia.
Qed.

Lemma inverse_at_lookup (π : list nat) i v :
  NoDup π → π !! i = Some v → Spec.inverse_at π v = i.
Proof.
  intros Hnd Hi. unfold Spec.inverse_at.
  destruct (list_find (λ w, w = v) π) as [[k w]|] eqn:Hfind; cbn.
  - apply list_find_Some in Hfind as (Hk & -> & _).
    by eapply NoDup_lookup.
  - apply list_find_None in Hfind.
    apply list_elem_of_lookup_2 in Hi.
    rewrite Forall_forall in Hfind. by destruct (Hfind v Hi).
Qed.

Lemma comprehension_total (pixels : list pixel) indices :
  Forall (λ i, i < length pixels)%nat indices →
  comprehension pixels indices = Ok ((λ i, pixels !!! i) <$> indices).
Proof.
  intros Hlt. destruct (comprehension_Ok pixels indices Hlt) as (out & -> & Hlen & Hlook).
  f_equal. apply list_eq_same_length with (length indices); [by rewrite length_fmap|done|].
  intros k x y Hk Hx Hy. rewrite list_lookup_fmap in Hy.
  destruct (indices !! k) as [i|] eqn:Hi; [|done].
  rewrite (Hlook k i Hi) in Hx. cbn in Hy.
  rewrite (list_lookup_total_correct _ _ _ Hx) in Hy. congruence.
Qed.

Lemma reverse_loop_inverse (π : list nat) :
  π ≡ₚ seq 0 (length π) →
  reverse_loop (enumerate π) (replicate (length π) 0%nat)
  = Ok (Spec.inverse_at π <$> seq 0 (length π)).
Proof.
  intros Hperm.
  assert (NoDup π) as Hnd by (rewrite Hperm; apply NoDup_seq).
  assert (Forall (λ v, v < length π)%nat π) as Hlt.
  { apply Forall_forall. intros v Hv. rewrite Hperm in Hv.
    apply elem_of_seq in Hv. lia. }
  unfold enumerate.
  destruct (reverse_loop_Ok π 0 (replicate (length π) 0%nat) Hnd) as (rev & -> & Hlen & Hin & _).
  { by rewrite length_replicate. }
  rewrite length_replicate in Hlen. f_equal.
  apply list_eq_same_length with (length π); [by (rewrite length_fmap, length_seq)|done|].
  intros j x y Hj Hx Hy.
  rewrite list_lookup_fmap, lookup_seq_lt in Hy by done. cbn in Hy.
  injection Hy as <-.
  assert (j ∈ π) as [i Hi]%list_elem_of_lookup.
  { rewrite Hperm. apply elem_of_seq. lia. }
  rewrite (Hin i j Hi) in Hx. rewrite (inverse_at_lookup π i j Hnd Hi). cbn in Hx.
  congruence.
Qed.

(** Unshuffling what was shuffled, on the pixel lists. *)
Lemma unshuffle_shuffle (pixels : list pixel) seed :
  Spec.unshuffle (Spec.shuffle pixels seed) seed = pixels.
Proof.
  unfold Spec.unshuffle.
  assert (length (Spec.shuffle pixels seed) = length pixels) as Hlen.
  { unfold Spec.shuffle. by rewrite length_fmap, permutation_length. }
  rewrite Hlen. pose (Spec.permutation seed (length pixels)) as π. fold π.
  apply list_eq_same_length with (length pixels); [done|by (rewrite length_fmap, length_seq)|].
  intros j x y Hj Hx Hy.
  rewrite list_lookup_fmap, lookup_seq_lt in Hx by done. cbn in Hx. injection Hx as <-.
  pose proof (permutation_elem_of seed (length pixels) j Hj) as Hin.
  apply list_elem_of_lookup in Hin as [i Hi].
  fold π in Hi.
  rewrite (inverse_at_lookup π i j (permutation_NoDup _ _) Hi).
  unfold Spec.shuffle. fold π.
  erewrite list_lookup_total_correct; [|by rewrite list_lookup_fmap, Hi].
  by apply list_lookup_total_correct.
Qed.

Lemma shuffle_length_spec (pixels : list pixel) seed :
  length (Spec.shuffle pixels seed) = length pixels.
Proof. unfold Spec.shuffle. by rewrite length_fmap, permutation_length. Qed.

Lemma unshuffle_length_spec (pixels : list pixel) seed :
  length (Spec.unshuffle pixels seed) = length pixels.
Proof. unfold Spec.unshuffle. by rewrite length_fmap, length_seq. Qed.

Lemma fmap_lookup_total_seq (pixels : list pixel) :
  (λ i, pixels !!! i) <$> seq 0 (length pixels) = pixels.
Proof.
  apply list_eq_same_length with (length pixels); [done|by (rewrite length_fmap, length_seq)|].
  intros i x y Hi Hx Hy.
  rewrite list_lookup_fmap, lookup_seq_lt in Hx by done. cbn in Hx. injection Hx as <-.
  by apply list_lookup_total_correct.
Qed.

Lemma shuffle_Permutation_spec (pixels : list pixel) seed :
  Spec.shuffle pixels seed ≡ₚ pixels.
Proof.
  unfold Spec.shuffle. rewrite permutation_Permutation.
  by rewrite fmap_lookup_total_seq.
Qed.

End PermutationFacts.

(** ** The seed *)

Section SeedFacts.
Import SHA256.

Lemma be_bytes_length n x : length (be_bytes n x) = n.
Proof. induction n as [|n IH]; cbn; [done|by rewrite IH]. Qed.

Lemma be_bytes_range n x : Forall (λ b, 0 ≤ b < 256) (be_bytes n x).
Proof.
  induction n as [|n IH]; cbn; constructor; [|done].
  apply Z.mod_pos_bound. lia.
Qed.

Lemma digest_length data : length (digest data) = 32%nat.
Proof.
  unfold digest. destruct (blocks _ H0 (pad data)) as [[[[[[[a b] c] d] e] f] g] h].
  by rewrite !length_app, !be_bytes_length.
Qed.

Lemma digest_range data : Forall (λ b, 0 ≤ b < 256) (digest data).
Proof.
  unfold digest. destruct (blocks _ H0 (pad data)) as [[[[[[[a b] c] d] e] f] g] h].
  rewrite !Forall_app. repeat split; apply be_bytes_range.
Qed.

Lemma hex_value_digit d : 0 ≤ d < 16 → hex_value (hex_digit d) = Some d.
Proof.
  intros Hd. assert (∃ n, (n < 16)%nat ∧ d = Z.of_nat n) as (n & Hn & ->).
  { exists (Z.to_nat d). lia. }
  do 16 (destruct n as [|n]; [reflexivity|]). lia.
Qed.

Lemma int16_from_hex acc bs :
  Forall (λ b, 0 ≤ b < 256) bs →
  int16_from acc (mjoin ((λ b, [hex_digit (b / 16); hex_digit (b mod 16)]) <$> bs))
  = Ok (foldl (λ acc b, acc * 256 + b) acc bs).
Proof.
  intros Hbs. revert acc. induction Hbs as [|b bs Hb _ IH]; intros acc; [done|].
  cbn [fmap list_fmap mjoin list_join app int16_from foldl].
  rewrite !hex_value_digit.
  - rewrite IH.
    replace ((acc * 16 + b / 16) * 16 + b mod 16) with (acc * 256 + b); [done|].
    pose proof (Z.div_mod b 16). lia.
  - apply Z.mod_pos_bound. lia.
  - split; [apply Z.div_pos; lia|apply Z.div_lt_upper_bound; lia].
Qed.

Lemma be_value_bound bs :
  Forall (λ b, 0 ≤ b < 256) bs → 0 ≤ be_value bs < 256 ^ Z.of_nat (length bs).
Proof.
  unfold be_value. induction bs as [|b bs IH] using rev_ind; intros Hbs; [cbn; lia|].
  apply Forall_app in Hbs as [Hbs Hb]. apply Forall_cons in Hb as [Hb _].
  rewrite foldl_app, length_app, Nat2Z.inj_add, Z.pow_add_r by lia.
  cbn [foldl length]. change (256 ^ Z.of_nat 1) with 256.
  specialize (IH Hbs). nia.
Qed.

(** The seed is the digest of the encoded password, read as a big-endian
    unsigned integer. *)
Lemma int16_hexdigest data : int16 (hexdigest data) = Ok (be_value (digest data)).
Proof.
  unfold int16, hexdigest, be_value.
  pose proof (digest_length data) as Hlen. pose proof (digest_range data) as Hr.
  rewrite <-(int16_from_hex 0 (digest data) Hr).
  by destruct (digest data) as [|b bs].
Qed.

Lemma utf8_char_scalar c : scalar_value c → is_Some (utf8_char c).
Proof.
  unfold scalar_value, utf8_char. intros Hc.
  repeat (case_match; try done); lia.
Qed.

Lemma encode_Ok s : well_formed s → ∃ data, encode s = Ok data.
Proof.
  induction 1 as [|c s Hc _ [data IH]]; [by exists []|].
  destruct (utf8_char_scalar c Hc) as [bs Hbs].
  exists (bs ++ data). cbn [encode]. by rewrite Hbs, IH.
Qed.

Lemma generate_seed_Ok pw :
  well_formed pw →
  ∃ data, encode pw = Ok data ∧ generate_seed pw = Ok (be_value (digest data)).
Proof.
  intros [data Hdata]%encode_Ok. exists data. split; [done|].
  unfold generate_seed. rewrite Hdata. apply int16_hexdigest.
Qed.

Lemma generate_seed_range pw seed : generate_seed pw = Ok seed → 0 ≤ seed < 2 ^ 256.
Proof.
  unfold generate_seed. destruct (encode pw) as [data|]; [|done].
  rewrite int16_hexdigest. intros [= <-].
  pose proof (be_value_bound (digest data) (digest_range data)) as Hb.
  rewrite digest_length in Hb. exact Hb.
Qed.

End SeedFacts.

(** *** More passwords than seeds *)

(** [n + 1] values below [n] cannot be pairwise different. *)
Lemma pigeonhole (n : nat) (f : nat → Z) :
  (∀ i, (i ≤ n)%nat → 0 ≤ f i < Z.of_nat n) →
  ∃ i j, (i < j ≤ n)%nat ∧ f i = f j.
Proof.
  revert f. induction n as [|n IH]; intros f Hf.
  { specialize (Hf 0%nat). lia. }
  assert (∀ m, (∃ i, (i < m)%nat ∧ f i = f (S n)) ∨ (∀ i, (i < m)%nat → f i ≠ f (S n)))
    as Hdec.
  { induction m as [|m [(i & Hi & Heq)|Hno]].
    - right. lia.
    - left. exists i. split; [lia|done].
    - destruct (decide (f m = f (S n))) as [Heq|Hne].
      + left. exists m. split; [lia|done].
      + right. intros i Hi. destruct (decide (i = m)) as [->|]; [done|apply Hno; lia]. }
  destruct (Hdec (S n)) as [(i & Hi & Heq)|Hno].
  { exists i, (S n). split; [lia|done]. }
  destruct (IH (λ i, if decide (f i < f (S n)) then f i else f i - 1)) as (i & j & Hij & Heq).
  { intros i Hi. specialize (Hno i ltac:(lia)).
    pose proof (Hf i ltac:(lia)). pose proof (Hf (S n) ltac:(lia)).
    case_decide; lia. }
  exists i, j. split; [lia|].
  pose proof (Hno i ltac:(lia)). pose proof (Hno j ltac:(lia)).
  repeat case_decide; lia.
Qed.

Lemma undigits_digits n i : undigits (digits n i) = i mod 128 ^ Z.of_nat n.
Proof.
  revert i. induction n as [|n IH]; intros i.
  { cbn. by rewrite Z.mod_1_r. }
  cbn [digits undigits foldr]. fold (undigits (digits n (i / 128))). rewrite IH.
  rewrite Nat2Z.inj_succ, Z.pow_succ_r by lia.
  rewrite Z2N.id by (apply Z.mod_pos_bound; lia).
  rewrite Z.rem_mul_r by lia. lia.
Qed.

Lemma digits_length n i : length (digits n i) = n.
Proof. revert i. induction n as [|n IH]; intros i; cbn; [done|by rewrite IH]. Qed.

Lemma digits_well_formed n i : well_formed (digits n i).
Proof.
  revert i. induction n as [|n IH]; intros i; cbn; constructor; [|apply IH].
  unfold scalar_value. pose proof (Z.mod_pos_bound i 128). lia.
Qed.

(** Two different passwords of 37 ASCII characters with the same seed. *)
Lemma seed_collision :
  ∃ pw1 pw2 seed, length pw1 = 37%nat ∧ length pw2 = 37%nat ∧ pw1 ≠ pw2
    ∧ generate_seed pw1 = Ok seed ∧ generate_seed pw2 = Ok seed.
Proof.
  pose (f := λ i : nat,
          match generate_seed (digits 37 (Z.of_nat i)) with Ok seed => seed | Raise _ => 0 end).
  destruct (pigeonhole (Z.to_nat (2 ^ 256)) f) as (i & j & Hij & Heq).
  { intros i _. rewrite Z2Nat.id by lia. unfold f.
    destruct (generate_seed_Ok _ (digits_well_formed 37 (Z.of_nat i))) as (data & _ & Hs).
    rewrite Hs. by apply (generate_seed_range (digits 37 (Z.of_nat i))). }
  unfold f in Heq.
  destruct (generate_seed_Ok _ (digits_well_formed 37 (Z.of_nat i))) as (d1 & _ & H1).
  destruct (generate_seed_Ok _ (digits_well_formed 37 (Z.of_nat j))) as (d2 & _ & H2).
  rewrite H1, H2 in Heq.
  exists (digits 37 (Z.of_nat i)), (digits 37 (Z.of_nat j)), (SHA256.be_value (SHA256.digest d1)).
  rewrite !digits_length. repeat split; [|done|by rewrite H2, Heq].
  intros Hpw. apply (f_equal undigits) in Hpw. rewrite !undigits_digits in Hpw.
  assert (Z.of_nat j ≤ 2 ^ 256) by lia.
  assert (2 ^ 256 < 128 ^ Z.of_nat 37) by (by vm_compute).
  rewrite !Z.mod_small in Hpw by lia. lia.
Qed.

(** ** Images *)

Lemma clip_pixel_valid p : valid_pixel p → clip_pixel p = p.
Proof.
  destruct p as [[r g] b]. unfold valid_pixel, valid_channel, clip_pixel, clip8.
  intros (? & ? & ?). repeat f_equal; lia.
Qed.

Lemma Image_putdata_full img seq :
  length (data img) = (width img * height img)%nat →
  length seq = (width img * height img)%nat →
  Forall valid_pixel seq →
  Image_putdata img seq = Ok (mkImage (mode img) (width img) (height img) seq).
Proof.
  intros Hd Hs Hv. unfold Image_putdata. rewrite decide_True by lia.
  rewrite drop_ge, app_nil_r by lia. do 2 f_equal.
  rewrite <-(list_fmap_id seq) at 2.
  apply Forall_fmap_ext_1. eapply Forall_impl; [done|]. apply clip_pixel_valid.
Qed.

Lemma Image_thumbnail_fits `{Resample} img : fits (Image_thumbnail img).
Proof.
  unfold Image_thumbnail. destruct (decide (fits img)); [done|]. apply resample_fits.
Qed.

Lemma Image_thumbnail_wf `{Resample} img : wf_image img → wf_image (Image_thumbnail img).
Proof.
  unfold Image_thumbnail. destruct (decide (fits img)); [done|]. apply resample_wf.
Qed.

Lemma Image_thumbnail_id `{Resample} img : fits img → Image_thumbnail img = img.
Proof. intros Hf. unfold Image_thumbnail. by rewrite decide_True. Qed.

(** ** Running the functions *)

#[local] Arguments generate_seed : simpl never.
#[local] Arguments shuffle : simpl never.

Section Runs.
Context {R : Random} {P : Resample}.
Implicit Types (σ : State) (l : loc) (img : Image).

(** Unfolds the monad: a computation becomes the state it reaches. *)
Ltac run :=
  unfold mbind, M_bind, bind, mret, M_ret, ret, gets, lift, on_rng, seed_rng, modify,
    when, deref, store, alloc, raise; cbn.

(** The pixels [shift_colors] returns and the generator it leaves. *)
Lemma shift_colors_run σ pixels seed reverse :
  shift_colors pixels seed reverse σ =
  (Ok (if reverse then Spec.reverse_shift pixels seed else Spec.apply_shift pixels seed),
   set_rng (shift_loop reverse pixels (random_seed seed)).2 σ).
Proof.
  unfold shift_colors. run. rewrite <-shift_loop_spec.
  by destruct (shift_loop reverse pixels (random_seed seed)).
Qed.

Lemma shuffled_image_wf img seed reverse : wf_image img → wf_image (shuffled_image img seed reverse).
Proof.
  intros [Hlen Hv]. split; cbn.
  - destruct reverse; by rewrite ?unshuffle_length_spec, ?shuffle_length_spec.
  - destruct reverse.
    + unfold Spec.unshuffle. apply Forall_fmap, Forall_seq. intros j Hj. cbn.
      rewrite Forall_lookup in Hv.
      destruct (data img !! Spec.inverse_at (Spec.permutation seed (length (data img))) j)
        as [p|] eqn:Hp.
      * rewrite (list_lookup_total_correct _ _ _ Hp). eauto.
      * rewrite list_lookup_total_alt, Hp. cbn. unfold valid_channel. cbv. intuition congruence.
    + by rewrite shuffle_Permutation_spec.
Qed.

Lemma shuffle_pixels_run σ l img seed reverse :
  heap σ !! l = Some img → wf_image img →
  shuffle_pixels l seed reverse σ =
  (Ok (fresh (dom (heap σ))),
   set_heap (<[fresh (dom (heap σ)) := shuffled_image img seed reverse]> (heap σ))
     (set_rng (shuffle (seq 0 (length (data img))) (random_seed seed)).2 σ)).
Proof.
  intros Hl [Hlen Hv]. unfold shuffle_pixels. run. rewrite Hl.
  pose proof (permutation_Permutation seed (length (data img))) as Hperm.
  pose proof (permutation_length seed (length (data img))) as Hplen.
  unfold Spec.permutation in Hperm, Hplen.
  destruct (shuffle (seq 0 (length (data img))) (random_seed seed)) as [π g'] eqn:Hsh.
  cbn [fst snd] in *.
  assert (Forall (λ i, i < length (data img))%nat π) as Hlt.
  { apply Forall_forall. intros v Hin. rewrite Hperm in Hin. apply elem_of_seq in Hin. lia. }
  assert (π = Spec.permutation seed (length (data img))) as Hπ.
  { unfold Spec.permutation. by rewrite Hsh. }
  destruct reverse.
  - replace (replicate (length (data img)) 0%nat) with (replicate (length π) 0%nat)
      by (by rewrite Hplen).
    rewrite reverse_loop_inverse by (by rewrite Hplen).
    rewrite comprehension_total.
    2:{ apply Forall_fmap, Forall_seq. intros j Hj. cbn.
        rewrite Hplen in Hj.
        assert (j ∈ π) as Hin by (rewrite Hperm; apply elem_of_seq; lia).
        apply list_elem_of_lookup in Hin as [i Hi].
        rewrite (inverse_at_lookup π i j) by (by rewrite ?Hperm; try apply NoDup_seq).
        apply lookup_lt_Some in Hi. lia. }
    unfold putdata. run. rewrite lookup_insert_eq. cbn.
    rewrite Image_putdata_full; cbn.
    + rewrite insert_insert_eq. unfold shuffled_image, Spec.unshuffle.
      rewrite <-list_fmap_compose, Hplen, Hπ. done.
    + by rewrite length_replicate.
    + by rewrite length_fmap, length_fmap, length_seq, Hplen.
    + rewrite <-list_fmap_compose, Hplen, Hπ.
      apply (shuffled_image_wf img seed true). by split.
  - rewrite comprehension_total by done.
    unfold putdata. run. rewrite lookup_insert_eq. cbn.
    rewrite Image_putdata_full; cbn.
    + rewrite insert_insert_eq. unfold shuffled_image, Spec.shuffle. by rewrite Hπ.
    + by rewrite length_replicate.
    + by rewrite length_fmap, Hplen.
    + rewrite Hπ. apply (shuffled_image_wf img seed false). by split.
Qed.

Lemma display_image_run σ l img :
  heap σ !! l = Some img → fits img →
  display_image l σ = (Ok (), set_tk_image (Some img) (set_processed_image (Some l) σ)).
Proof.
  intros Hl Hf. unfold display_image, thumbnail. run. rewrite Hl. cbn.
  rewrite Image_thumbnail_id by done. rewrite lookup_insert_eq.
  rewrite insert_id by done. by destruct σ.
Qed.

Lemma shifted_image_wf img seed shift : wf_image img → wf_image (shifted_image img seed shift).
Proof.
  destruct shift; [|done]. intros [Hlen Hv]. split; cbn.
  - by rewrite apply_shift_length.
  - apply apply_shift_valid.
Qed.

Lemma fresh_dom_insert (h : gmap loc Image) l img img' :
  h !! l = Some img → fresh (dom (<[l:=img']> h)) = fresh (dom h).
Proof.
  intros Hl. rewrite dom_insert_L. f_equal.
  apply subseteq_union_1_L, singleton_subseteq_l, elem_of_dom. eauto.
Qed.

Lemma encrypt_image_run σ l img seed :
  image σ = Some l → heap σ !! l = Some img → wf_image img → fits img →
  password_entry σ ≠ [] → generate_seed (password_entry σ) = Ok seed →
  let src := shifted_image img seed (color_shift_var σ) in
  let l' := fresh (dom (heap σ)) in
  let enc := shuffled_image src seed false in
  ∃ σ', encrypt_image σ = (Ok (), σ')
        ∧ heap σ' = <[l':=enc]> (<[l:=src]> (heap σ))
        ∧ image σ' = Some l ∧ processed_image σ' = Some l' ∧ tk_image σ' = Some enc
        ∧ warnings σ' = warnings σ
        ∧ password_entry σ' = password_entry σ
        ∧ color_shift_var σ' = color_shift_var σ.
Proof.
  intros Hi Hl Hwf Hf Hpw Hseed src l' enc.
  pose proof (shifted_image_wf img seed (color_shift_var σ) Hwf) as Hsrc. fold src in Hsrc.
  unfold encrypt_image. run. rewrite Hi.
  rewrite Hseed. clear Hseed.
  destruct (password_entry σ) as [|c pw] eqn:Hpwe; [exfalso; by apply Hpw|].
  unfold getdata, putdata. run.
  destruct (color_shift_var σ) eqn:Hcs; cbn.
  - rewrite Hl. cbn. rewrite shift_colors_run. cbn. rewrite Hl. destruct Hwf as [Hlen Hv].
    rewrite Image_putdata_full; [|done|by rewrite apply_shift_length|apply apply_shift_valid].
    cbn. erewrite shuffle_pixels_run; [|cbn; apply lookup_insert_eq|exact Hsrc].
    cbn. rewrite (fresh_dom_insert _ _ img) by done. fold l'.
    erewrite display_image_run; [|cbn; apply lookup_insert_eq|done].
    eexists. split; [done|]. cbn. by rewrite Hpwe.
  - erewrite shuffle_pixels_run; [|done|done].
    cbn. fold l'.
    erewrite display_image_run; [|cbn; apply lookup_insert_eq|done].
    eexists. split; [done|]. cbn. rewrite Hpwe.
    subst src. cbn. by rewrite (insert_id _ l img).
Qed.

Lemma decrypt_image_run σ l img seed :
  image σ = Some l → heap σ !! l = Some img → wf_image img → fits img →
  password_entry σ ≠ [] → generate_seed (password_entry σ) = Ok seed →
  let l' := fresh (dom (heap σ)) in
  let dec := unshifted_image (shuffled_image img seed true) seed (color_shift_var σ) in
  ∃ σ', decrypt_image σ = (Ok (), σ')
        ∧ heap σ' = <[l':=dec]> (heap σ)
        ∧ image σ' = Some l ∧ processed_image σ' = Some l' ∧ tk_image σ' = Some dec
        ∧ warnings σ' = warnings σ
        ∧ password_entry σ' = password_entry σ
        ∧ color_shift_var σ' = color_shift_var σ.
Proof.
  intros Hi Hl Hwf Hf Hpw Hseed l' dec.
  pose proof (shuffled_image_wf img seed true Hwf) as [Hulen Huv].
  unfold decrypt_image. run. rewrite Hi.
  rewrite Hseed. clear Hseed.
  destruct (password_entry σ) as [|c pw] eqn:Hpwe; [exfalso; by apply Hpw|].
  erewrite shuffle_pixels_run; [|done|done]. fold l'.
  unfold getdata, putdata. run.
  destruct (color_shift_var σ) eqn:Hcs; cbn.
  - rewrite lookup_insert_eq. cbn. rewrite shift_colors_run. cbn.
    rewrite lookup_insert_eq. cbn.
    rewrite Image_putdata_full;
      [|done|cbn; by rewrite reverse_shift_length|apply reverse_shift_valid].
    cbn. rewrite insert_insert_eq.
    erewrite display_image_run; [|cbn; apply lookup_insert_eq|done].
    eexists. split; [done|]. cbn. by rewrite Hpwe.
  - erewrite display_image_run; [|cbn; apply lookup_insert_eq|done].
    eexists. split; [done|]. cbn. by rewrite Hpwe.
Qed.

End Runs.

(** ** The invariant of the main loop

    [load_image] leaves [self.image] on a well-formed image that fits the
    box of the canvas, because [display_image] runs [thumbnail] on that very
    object, and no callback breaks this: [encrypt_image] and
    [decrypt_image] never run on anything else. *)

Section Invariant.
Context {R : Random} {P : Resample}.
Implicit Types (σ : State) (l : loc) (img : Image).

#[local] Arguments generate_seed : simpl never.

Lemma init_loaded_ok g : loaded_ok (init g).
Proof. intros l Hl. discriminate Hl. Qed.

Lemma load_image_loaded σ opened :
  wf_image opened →
  ∃ σ' l img, load_image opened σ = (Ok (), σ')
    ∧ image σ' = Some l ∧ heap σ' !! l = Some img ∧ wf_image img ∧ fits img.
Proof.
  intros Hwf. unfold load_image, display_image, thumbnail.
  unfold mbind, M_bind, bind, mret, M_ret, ret, modify, deref, store, alloc. cbn.
  rewrite !lookup_insert_eq. cbn. rewrite lookup_insert_eq.
  eexists _, _, _. split; [done|]. cbn. split; [done|].
  rewrite lookup_insert_eq. split; [done|].
  split; [by apply Image_thumbnail_wf|apply Image_thumbnail_fits].
Qed.

(** A password that cannot be encoded makes both methods raise before
    anything is changed. *)
Lemma generate_seed_raises σ l e :
  image σ = Some l → generate_seed (password_entry σ) = Raise e →
  encrypt_image σ = (Raise e, σ) ∧ decrypt_image σ = (Raise e, σ).
Proof.
  intros Hi Hseed.
  unfold encrypt_image, decrypt_image, mbind, M_bind, bind, gets, lift. rewrite Hi.
  destruct (password_entry σ) as [|c pw].
  - exfalso. clear -Hseed. vm_compute in Hseed. discriminate Hseed.
  - rewrite Hseed. split; reflexivity.
Qed.

Lemma callback_loaded_ok e σ : wf_event e → loaded_ok σ → loaded_ok (callback e σ).2.
Proof.
  intros He Hσ. destruct e as [opened|s|b| |]; cbn [callback wf_event] in *.
  - destruct (load_image_loaded σ opened He) as (σ' & l & img & -> & Hi & Hl & Hwf & Hf).
    intros l' Hl'. cbn in Hl'. rewrite Hi in Hl'. injection Hl' as <-. eauto.
  - exact Hσ.
  - exact Hσ.
  - destruct (image σ) as [l|] eqn:Hi.
    2:{ unfold encrypt_image, mbind, M_bind, bind, gets. rewrite Hi. exact Hσ. }
    destruct (Hσ l Hi) as (img & Hl & Hwf & Hf).
    destruct (password_entry σ) as [|c pw] eqn:Hpw.
    { unfold encrypt_image, mbind, M_bind, bind, gets. rewrite Hi, Hpw. exact Hσ. }
    destruct (generate_seed (password_entry σ)) as [seed|e] eqn:Hseed.
    + destruct (encrypt_image_run σ l img seed Hi Hl Hwf Hf) as (σ' & -> & Hheap & Hi' & _);
        [by rewrite Hpw|done|].
      intros l' Hl'. cbn [snd] in *. rewrite Hi' in Hl'. injection Hl' as <-.
      exists (shifted_image img seed (color_shift_var σ)). split; [|split].
      * rewrite Hheap, lookup_insert_ne, lookup_insert_eq; [done|].
        intros Heq. pose proof (is_fresh (dom (heap σ))) as Hfr.
        rewrite Heq in Hfr. apply Hfr, elem_of_dom. eauto.
      * by apply shifted_image_wf.
      * unfold shifted_image. by destruct (color_shift_var σ).
    + destruct (generate_seed_raises σ l e Hi Hseed) as [-> _]. exact Hσ.
  - destruct (image σ) as [l|] eqn:Hi.
    2:{ unfold decrypt_image, mbind, M_bind, bind, gets. rewrite Hi. exact Hσ. }
    destruct (Hσ l Hi) as (img & Hl & Hwf & Hf).
    destruct (password_entry σ) as [|c pw] eqn:Hpw.
    { unfold decrypt_image, mbind, M_bind, bind, gets. rewrite Hi, Hpw. exact Hσ. }
    destruct (generate_seed (password_entry σ)) as [seed|e] eqn:Hseed.
    + destruct (decrypt_image_run σ l img seed Hi Hl Hwf Hf) as (σ' & -> & Hheap & Hi' & _);
        [by rewrite Hpw|done|].
      intros l' Hl'. cbn [snd] in *. rewrite Hi' in Hl'. injection Hl' as <-.
      exists img. split; [|done].
      rewrite Hheap, lookup_insert_ne; [done|].
      intros Heq. pose proof (is_fresh (dom (heap σ))) as Hfr.
      rewrite Heq in Hfr. apply Hfr, elem_of_dom. eauto.
    + destruct (generate_seed_raises σ l e Hi Hseed) as [_ ->]. exact Hσ.
Qed.

(** Whatever the user does, starting from [__init__]. *)
Theorem mainloop_loaded_ok events g :
  Forall wf_event events → loaded_ok (mainloop events (init g)).
Proof.
  intros Hev. generalize (init_loaded_ok g). generalize (init g).
  induction Hev as [|e events He _ IH]; intros σ Hσ; [done|].
  cbn [mainloop]. by apply IH, callback_loaded_ok.
Qed.

End Invariant.

(** ** The claims of the specification *)

Section Claims.
Context {R : Random} {P : Resample}.
Implicit Types (σ : State) (l : loc) (img : Image).

#[local] Arguments generate_seed : simpl never.
#[local] Arguments shuffle : simpl never.

Lemma shuffled_image_unshuffle img seed :
  shuffled_image (shuffled_image img seed false) seed true = img.
Proof.
  unfold shuffled_image. cbn [data mode width height].
  rewrite unshuffle_shuffle. by destruct img.
Qed.

Lemma unshifted_shifted_image img seed shift :
  wf_image img → unshifted_image (shifted_image img seed shift) seed shift = img.
Proof.
  intros [_ Hv]. destruct shift; [|done]. unfold unshifted_image, shifted_image.
  cbn [data mode width height]. rewrite reverse_apply_shift by done. by destruct img.
Qed.

(** C1. Round trip: when [encrypt_image] has run on a loaded image with a
    non-empty password, [decrypt_image], run with the same password and the
    same checkbox setting on an application that holds the image
    [encrypt_image] produced, produces the original image: same mode, same
    size, same pixels at the same positions.  This holds for every image
    size, empty and single-pixel images included, and for both settings of
    the checkbox. *)
Theorem encrypt_decrypt_roundtrip σ l img :
  image σ = Some l → heap σ !! l = Some img → wf_image img → fits img →
  password_entry σ ≠ [] → well_formed (password_entry σ) →
  ∃ σ1 l1 enc,
    encrypt_image σ = (Ok (), σ1)
    ∧ processed_image σ1 = Some l1 ∧ heap σ1 !! l1 = Some enc
    ∧ ∀ σ2 l2,
        image σ2 = Some l2 → heap σ2 !! l2 = Some enc →
        password_entry σ2 = password_entry σ →
        color_shift_var σ2 = color_shift_var σ →
        ∃ σ3 l3,
          decrypt_image σ2 = (Ok (), σ3)
          ∧ processed_image σ3 = Some l3 ∧ heap σ3 !! l3 = Some img.
Proof.
  intros Hi Hl Hwf Hf Hpw Hwfpw.
  destruct (generate_seed_Ok _ Hwfpw) as (bytes & _ & Hseed).
  destruct (encrypt_image_run σ l img _ Hi Hl Hwf Hf Hpw Hseed)
    as (σ1 & Hrun & Hheap & _ & Hproc & _).
  pose proof (shifted_image_wf img (SHA256.be_value (SHA256.digest bytes))
                (color_shift_var σ) Hwf) as Hsrc.
  eexists σ1, _, _. split; [exact Hrun|]. split; [exact Hproc|].
  split; [rewrite Hheap; apply lookup_insert_eq|].
  intros σ2 l2 Hi2 Hl2 Hpw2 Hcs2.
  rewrite <-Hpw2 in Hpw, Hseed.
  edestruct (decrypt_image_run σ2 l2) as (σ3 & Hrun3 & Hheap3 & _ & Hproc3 & _);
    [exact Hi2|exact Hl2| | |exact Hpw|exact Hseed|].
  { by apply shuffled_image_wf. }
  { destruct Hf. unfold fits, shifted_image. by destruct (color_shift_var σ). }
  eexists σ3, _. split; [exact Hrun3|]. split; [exact Hproc3|].
  rewrite Hheap3, lookup_insert_eq, Hcs2. f_equal.
  rewrite shuffled_image_unshuffle. by apply unshifted_shifted_image.
Qed.

(** C2. For every [N] and every seed, the index list [random.shuffle]
    leaves in [shuffle_pixels] is a permutation of [0, ..., N-1]: it has
    [N] entries and every index below [N] occurs at exactly one position.
    The shuffled image holds at position [i] the pixel the input holds at
    position [indices[i]], and [shuffle_pixels] with [reverse=True], run
    with the same seed on an image equal to the shuffled one, returns an
    image equal to the input.  An image of at most one pixel is returned as
    it is. *)
Theorem shuffle_pixels_bijective σ l img seed :
  heap σ !! l = Some img → wf_image img →
  (∀ n, let indices := (shuffle (seq 0 n) (random_seed seed)).1 in
        indices ≡ₚ seq 0 n ∧ length indices = n
        ∧ ∀ i, (i < n)%nat →
               ∃ k, indices !! k = Some i ∧ ∀ k', indices !! k' = Some i → k' = k)
  ∧ ∃ σ1 l1 shuffled,
      shuffle_pixels l seed false σ = (Ok l1, σ1) ∧ heap σ1 !! l1 = Some shuffled
      ∧ data shuffled
        = (λ i, data img !!! i) <$> (shuffle (seq 0 (length (data img))) (random_seed seed)).1
      ∧ ((length (data img) ≤ 1)%nat → shuffled = img)
      ∧ ∀ σ2 l2, heap σ2 !! l2 = Some shuffled →
          ∃ σ3 l3, shuffle_pixels l2 seed true σ2 = (Ok l3, σ3) ∧ heap σ3 !! l3 = Some img.
Proof.
  intros Hl Hwf. split.
  - intros n. cbn zeta. fold (Spec.permutation seed n).
    split; [apply permutation_Permutation|]. split; [apply permutation_length|].
    intros i Hi. pose proof (permutation_elem_of seed n i Hi) as Hin.
    apply list_elem_of_lookup in Hin as [k Hk]. exists k. split; [exact Hk|].
    intros k' Hk'. by eapply NoDup_lookup; [apply permutation_NoDup| |].
  - eexists _, _, _. split; [by apply shuffle_pixels_run|].
    cbn. split; [apply lookup_insert_eq|]. split; [done|]. split.
    + intros Hn. unfold shuffled_image, Spec.shuffle, Spec.permutation.
      rewrite shuffle_short by (by rewrite length_seq). cbn.
      rewrite fmap_lookup_total_seq. by destruct img.
    + intros σ2 l2 Hl2. eexists _, _. split.
      * apply shuffle_pixels_run; [done|]. by apply shuffled_image_wf.
      * cbn. rewrite lookup_insert_eq. f_equal. apply shuffled_image_unshuffle.
Qed.

(** C3. [shift_colors] with [reverse=True] undoes [shift_colors]: both
    calls draw, for the same seed, the same three shift values per pixel
    position, each in [0, 255]; the first adds them modulo 256 and the
    second subtracts them modulo 256, whatever the state of the program,
    its generator included, when each call is made. *)
Theorem shift_colors_roundtrip (p : list pixel) (s : Z) (σ σ' : State) :
  Forall valid_pixel p →
  let shifts := Spec.shift_values s (length p) in
  Forall (λ '(shift_r, shift_g, shift_b),
            valid_channel shift_r ∧ valid_channel shift_g ∧ valid_channel shift_b) shifts
  ∧ (shift_colors p s false σ).1 = Ok (zip_with Spec.add_shift p shifts)
  ∧ (∀ q, length q = length p →
          (shift_colors q s true σ').1 = Ok (zip_with Spec.sub_shift q shifts))
  ∧ ∃ shifted,
      (shift_colors p s false σ).1 = Ok shifted ∧ (shift_colors shifted s true σ').1 = Ok p.
Proof.
  intros Hp shifts. split; [apply shift_values_from_range|].
  split; [by rewrite shift_colors_run|]. split.
  - intros q Hq. rewrite shift_colors_run. cbn [fst].
    unfold Spec.reverse_shift. by rewrite Hq.
  - exists (Spec.apply_shift p s). rewrite !shift_colors_run. cbn [fst].
    split; [done|]. f_equal. by apply reverse_apply_shift.
Qed.

(** C4. Every stage keeps the shape of the pixel buffer.  [shift_colors],
    forward or reverse, returns as many pixels as it is given, every
    channel in [0, 255], and [putdata] stores them in the image without
    changing its size; [shuffle_pixels], forward or reverse, returns an
    image of the same width and height with the same number of pixels,
    every channel in [0, 255]. *)
Theorem transforms_preserve_shape σ l img seed reverse :
  heap σ !! l = Some img → wf_image img →
  (∃ out img',
     (shift_colors (data img) seed reverse σ).1 = Ok out
     ∧ length out = length (data img) ∧ Forall valid_pixel out
     ∧ Image_putdata img out = Ok img' ∧ data img' = out
     ∧ width img' = width img ∧ height img' = height img)
  ∧ ∃ σ' l' out,
      shuffle_pixels l seed reverse σ = (Ok l', σ') ∧ heap σ' !! l' = Some out
      ∧ width out = width img ∧ height out = height img
      ∧ length (data out) = length (data img) ∧ Forall valid_pixel (data out).
Proof.
  intros Hl Hwf. split.
  - destruct Hwf as [Hlen Hv].
    assert (length (if reverse then Spec.reverse_shift (data img) seed
                    else Spec.apply_shift (data img) seed) = length (data img)) as Hout.
    { destruct reverse; [apply reverse_shift_length|apply apply_shift_length]. }
    assert (Forall valid_pixel (if reverse then Spec.reverse_shift (data img) seed
                                else Spec.apply_shift (data img) seed)) as Hvout.
    { destruct reverse; [apply reverse_shift_valid|apply apply_shift_valid]. }
    eexists _, _. rewrite shift_colors_run. split; [done|].
    split; [done|]. split; [done|].
    split; [apply Image_putdata_full; [done|by rewrite Hout|done]|done].
  - pose proof (shuffled_image_wf img seed reverse Hwf) as [Hlen Hv].
    eexists _, _, _. split; [by apply shuffle_pixels_run|].
    cbn. split; [apply lookup_insert_eq|]. cbn. repeat split; [|done].
    destruct Hwf as [Hlen' _]. cbn in Hlen. by rewrite Hlen, Hlen'.
Qed.

(** C5. With an image loaded and an empty password entry, [encrypt_image]
    and [decrypt_image] do nothing but show the warning "Password is
    required!" and return: no seed is derived, the generator is not
    seeded, no image object is created or changed, and [self.image] and
    [self.processed_image] stay what they were. *)
Theorem empty_password_rejected σ l :
  image σ = Some l → password_entry σ = [] →
  ∃ σ',
    encrypt_image σ = (Ok (), σ') ∧ decrypt_image σ = (Ok (), σ')
    ∧ encrypt_image σ = showwarning "Warning" "Password is required!" σ
    ∧ warnings σ' = ("Warning", "Password is required!") :: warnings σ
    ∧ heap σ' = heap σ ∧ rng σ' = rng σ
    ∧ image σ' = image σ ∧ processed_image σ' = processed_image σ
    ∧ tk_image σ' = tk_image σ.
Proof.
  intros Hi Hpw.
  exists (set_warnings (("Warning", "Password is required!") :: warnings σ) σ).
  unfold encrypt_image, decrypt_image, showwarning.
  unfold mbind, M_bind, bind, gets, modify. rewrite Hi, Hpw. by repeat split.
Qed.

(** C6, as the program has it.  [decrypt_image] checks nothing about the
    shape of the image it is given: on every loaded well-formed image,
    whatever produced it, [shuffle_pixels] with [reverse=True] and
    [shift_colors] with [reverse=True] run to the end, and the image
    displayed has the width, the height and the pixel count of the image
    given. *)
Theorem decrypt_image_any_shape σ l img :
  image σ = Some l → heap σ !! l = Some img → wf_image img → fits img →
  password_entry σ ≠ [] → well_formed (password_entry σ) →
  ∃ σ' l' dec,
    decrypt_image σ = (Ok (), σ')
    ∧ processed_image σ' = Some l' ∧ heap σ' !! l' = Some dec
    ∧ width dec = width img ∧ height dec = height img
    ∧ length (data dec) = length (data img).
Proof.
  intros Hi Hl Hwf Hf Hpw Hwfpw.
  destruct (generate_seed_Ok _ Hwfpw) as (bytes & _ & Hseed).
  destruct (decrypt_image_run σ l img _ Hi Hl Hwf Hf Hpw Hseed)
    as (σ' & Hrun & Hheap & _ & Hproc & _).
  eexists σ', _, _. split; [exact Hrun|]. split; [exact Hproc|].
  split; [rewrite Hheap; apply lookup_insert_eq|].
  unfold unshifted_image, shuffled_image.
  destruct (color_shift_var σ); cbn [width height data]; repeat split;
    by rewrite ?reverse_shift_length, unshuffle_length_spec.
Qed.

(** C7. The order of the stages.  With the seed derived from the password,
    the image [encrypt_image] displays holds the pixels of [self.image]
    shifted (when the checkbox is ticked) and then shuffled, and the image
    [decrypt_image] displays holds them unshuffled and then (when the
    checkbox is ticked) shifted back, each stage computed from a generator
    initialised with the seed: the results are the specification's
    [Encrypt] and [Decrypt], and the state of [random] when the method
    starts plays no part. *)
Theorem stage_order σ l img :
  image σ = Some l → heap σ !! l = Some img → wf_image img → fits img →
  password_entry σ ≠ [] → well_formed (password_entry σ) →
  ∃ seed,
    generate_seed (password_entry σ) = Ok seed
    ∧ (∀ g, ∃ σ1 l1,
         encrypt_image (set_rng g σ) = (Ok (), σ1) ∧ processed_image σ1 = Some l1
         ∧ heap σ1 !! l1 =
             Some (mkImage (mode img) (width img) (height img)
                     (Spec.Encrypt (data img) seed (color_shift_var σ))))
    ∧ (∀ g, ∃ σ2 l2,
         decrypt_image (set_rng g σ) = (Ok (), σ2) ∧ processed_image σ2 = Some l2
         ∧ heap σ2 !! l2 =
             Some (mkImage (mode img) (width img) (height img)
                     (Spec.Decrypt (data img) seed (color_shift_var σ)))).
Proof.
  intros Hi Hl Hwf Hf Hpw Hwfpw.
  destruct (generate_seed_Ok _ Hwfpw) as (bytes & _ & Hseed).
  eexists. split; [exact Hseed|]. split; intros g.
  - destruct (encrypt_image_run (set_rng g σ) l img _ Hi Hl Hwf Hf Hpw Hseed)
      as (σ1 & Hrun & Hheap & _ & Hproc & _).
    eexists σ1, _. split; [exact Hrun|]. split; [exact Hproc|].
    rewrite Hheap, lookup_insert_eq. f_equal.
    unfold shuffled_image, shifted_image, Spec.Encrypt. cbn [color_shift_var set_rng].
    by destruct (color_shift_var σ).
  - destruct (decrypt_image_run (set_rng g σ) l img _ Hi Hl Hwf Hf Hpw Hseed)
      as (σ2 & Hrun & Hheap & _ & Hproc & _).
    eexists σ2, _. split; [exact Hrun|]. split; [exact Hproc|].
    rewrite Hheap, lookup_insert_eq. f_equal.
    unfold unshifted_image, shuffled_image, Spec.Decrypt. cbn [color_shift_var set_rng].
    by destruct (color_shift_var σ).
Qed.

(** C8, as the program has it.  [generate_seed] returns the SHA-256 digest
    of the UTF-8 encoding of the password, its 32 bytes read as a
    big-endian unsigned integer, hence a number below 2^256; equal
    passwords give equal seeds. *)
Theorem generate_seed_digest (pw : str) :
  well_formed pw →
  ∃ bytes,
    encode pw = Ok bytes
    ∧ generate_seed pw = Ok (SHA256.be_value (SHA256.digest bytes))
    ∧ length (SHA256.digest bytes) = 32%nat
    ∧ 0 ≤ SHA256.be_value (SHA256.digest bytes) < 2 ^ 256
    ∧ ∀ pw', pw' = pw → generate_seed pw' = generate_seed pw.
Proof.
  intros Hwf. destruct (generate_seed_Ok pw Hwf) as (bytes & Henc & Hseed).
  exists bytes. split; [exact Henc|]. split; [exact Hseed|].
  split; [apply digest_length|]. split; [by apply (generate_seed_range pw)|].
  by intros pw' ->.
Qed.

(** C9. The stages are functions of the pixels and the seed.  Two runs of
    [shift_colors] on the same pixels with the same seed return the same
    pixels whatever the state of the program, its generator included, each
    run starts from, and two runs of [shuffle_pixels] on equal images with
    the same seed return equal images; each stage leaves the generator in
    a state that depends on the pixels and the seed alone. *)
Theorem stages_pure σ1 σ2 l1 l2 img seed reverse :
  heap σ1 !! l1 = Some img → heap σ2 !! l2 = Some img → wf_image img →
  (∃ out σ1' σ2',
     shift_colors (data img) seed reverse σ1 = (Ok out, σ1')
     ∧ shift_colors (data img) seed reverse σ2 = (Ok out, σ2')
     ∧ rng σ1' = rng σ2')
  ∧ ∃ out σ1' σ2' l1' l2',
      shuffle_pixels l1 seed reverse σ1 = (Ok l1', σ1')
      ∧ shuffle_pixels l2 seed reverse σ2 = (Ok l2', σ2')
      ∧ heap σ1' !! l1' = Some out ∧ heap σ2' !! l2' = Some out
      ∧ rng σ1' = rng σ2'.
Proof.
  intros H1 H2 Hwf. split.
  - eexists _, _, _. rewrite !shift_colors_run. by repeat split.
  - exists (shuffled_image img seed reverse).
    eexists _, _, _, _. split; [by apply shuffle_pixels_run|].
    split; [by apply shuffle_pixels_run|]. cbn.
    by rewrite !lookup_insert_eq.
Qed.

(** C10. With the checkbox ticked, [encrypt_image] changes the loaded image
    in place: afterwards [self.image] is the same object, and it holds the
    shifted pixels.  [shuffle_pixels] returns an object that did not exist
    before and leaves every object that did, the image it was given among
    them, as it was; so the encrypted image is another object than
    [self.image]. *)
Theorem encrypt_image_in_place σ l img seed' reverse :
  image σ = Some l → heap σ !! l = Some img → wf_image img → fits img →
  password_entry σ ≠ [] → well_formed (password_entry σ) →
  color_shift_var σ = true →
  (∃ seed σ1 l1,
     generate_seed (password_entry σ) = Ok seed
     ∧ encrypt_image σ = (Ok (), σ1)
     ∧ image σ1 = Some l
     ∧ heap σ1 !! l =
         Some (mkImage (mode img) (width img) (height img) (Spec.apply_shift (data img) seed))
     ∧ processed_image σ1 = Some l1 ∧ l1 ≠ l ∧ heap σ !! l1 = None)
  ∧ ∃ σ' l',
      shuffle_pixels l seed' reverse σ = (Ok l', σ')
      ∧ heap σ !! l' = None ∧ is_Some (heap σ' !! l')
      ∧ heap σ' !! l = Some img
      ∧ ∀ k, k ≠ l' → heap σ' !! k = heap σ !! k.
Proof.
  intros Hi Hl Hwf Hf Hpw Hwfpw Hcs.
  assert (heap σ !! fresh (dom (heap σ)) = None) as Hfresh.
  { apply not_elem_of_dom, is_fresh. }
  assert (fresh (dom (heap σ)) ≠ l) as Hne.
  { intros Heq. rewrite Heq in Hfresh. congruence. }
  split.
  - destruct (generate_seed_Ok _ Hwfpw) as (bytes & _ & Hseed).
    destruct (encrypt_image_run σ l img _ Hi Hl Hwf Hf Hpw Hseed)
      as (σ1 & Hrun & Hheap & Himg & Hproc & _).
    eexists _, σ1, _. split; [exact Hseed|]. split; [exact Hrun|].
    split; [exact Himg|]. split; [|by split].
    rewrite Hheap, lookup_insert_ne, lookup_insert_eq by done.
    by rewrite Hcs.
  - eexists _, _. split; [by apply shuffle_pixels_run|]. cbn.
    split; [done|]. split; [by rewrite lookup_insert_eq|].
    split; [by rewrite lookup_insert_ne|].
    intros k Hk. by rewrite lookup_insert_ne.
Qed.

End Claims.

(** ** The sample run *)

Section SampleRun.
#[local] Existing Instance lcg.
#[local] Existing Instance blank_filter.

(** A witness for C1: the scenario of the specification. *)
Lemma encrypt_decrypt_roundtrip_witness :
  ∃ σ1 l1 enc,
    encrypt_image sample_state = (Ok (), σ1)
    ∧ processed_image σ1 = Some l1 ∧ heap σ1 !! l1 = Some enc
    ∧ ∀ σ2 l2,
        image σ2 = Some l2 → heap σ2 !! l2 = Some enc →
        password_entry σ2 = password_entry sample_state →
        color_shift_var σ2 = color_shift_var sample_state →
        ∃ σ3 l3,
          decrypt_image σ2 = (Ok (), σ3)
          ∧ processed_image σ3 = Some l3 ∧ heap σ3 !! l3 = Some sample_image.
Proof.
  apply (@encrypt_decrypt_roundtrip lcg blank_filter sample_state 0%nat sample_image);
    compute_done.
Defined.

Lemma shuffle_pixels_bijective_witness :
  (∀ n, let indices := (shuffle (seq 0 n) (random_seed 7)).1 in
        indices ≡ₚ seq 0 n ∧ length indices = n
        ∧ ∀ i, (i < n)%nat →
               ∃ k, indices !! k = Some i ∧ ∀ k', indices !! k' = Some i → k' = k)
  ∧ ∃ σ1 l1 shuffled,
      shuffle_pixels 0%nat 7 false sample_state = (Ok l1, σ1)
      ∧ heap σ1 !! l1 = Some shuffled
      ∧ data shuffled
        = (λ i, data sample_image !!! i)
            <$> (shuffle (seq 0 (length (data sample_image))) (random_seed 7)).1
      ∧ ((length (data sample_image) ≤ 1)%nat → shuffled = sample_image)
      ∧ ∀ σ2 l2, heap σ2 !! l2 = Some shuffled →
          ∃ σ3 l3, shuffle_pixels l2 7 true σ2 = (Ok l3, σ3)
                   ∧ heap σ3 !! l3 = Some sample_image.
Proof.
  apply (@shuffle_pixels_bijective lcg sample_state 0%nat sample_image 7); compute_done.
Defined.

Lemma shift_colors_roundtrip_witness :
  let p := data sample_image in
  let shifts := Spec.shift_values 7 (length p) in
  Forall (λ '(shift_r, shift_g, shift_b),
            valid_channel shift_r ∧ valid_channel shift_g ∧ valid_channel shift_b) shifts
  ∧ (shift_colors p 7 false sample_state).1 = Ok (zip_with Spec.add_shift p shifts)
  ∧ (∀ q, length q = length p →
          (shift_colors q 7 true other_state).1 = Ok (zip_with Spec.sub_shift q shifts))
  ∧ ∃ shifted,
      (shift_colors p 7 false sample_state).1 = Ok shifted
      ∧ (shift_colors shifted 7 true other_state).1 = Ok p.
Proof.
  apply (@shift_colors_roundtrip lcg (data sample_image) 7 sample_state other_state).
  compute_done.
Defined.

Lemma transforms_preserve_shape_witness :
  (∃ out img',
     (shift_colors (data sample_image) 7 true sample_state).1 = Ok out
     ∧ length out = length (data sample_image) ∧ Forall valid_pixel out
     ∧ Image_putdata sample_image out = Ok img' ∧ data img' = out
     ∧ width img' = width sample_image ∧ height img' = height sample_image)
  ∧ ∃ σ' l' out,
      shuffle_pixels 0%nat 7 true sample_state = (Ok l', σ')
      ∧ heap σ' !! l' = Some out
      ∧ width out = width sample_image ∧ height out = height sample_image
      ∧ length (data out) = length (data sample_image) ∧ Forall valid_pixel (data out).
Proof.
  apply (@transforms_preserve_shape lcg sample_state 0%nat sample_image 7 true);
    compute_done.
Defined.

Lemma empty_password_rejected_witness :
  ∃ σ',
    encrypt_image loaded_state = (Ok (), σ')
    ∧ decrypt_image loaded_state = (Ok (), σ')
    ∧ encrypt_image loaded_state
      = showwarning "Warning" "Password is required!" loaded_state
    ∧ warnings σ' = ("Warning", "Password is required!") :: warnings loaded_state
    ∧ heap σ' = heap loaded_state ∧ rng σ' = rng loaded_state
    ∧ image σ' = image loaded_state
    ∧ processed_image σ' = processed_image loaded_state
    ∧ tk_image σ' = tk_image loaded_state.
Proof.
  apply (@empty_password_rejected lcg blank_filter loaded_state 0%nat); compute_done.
Defined.

(** C6, as the claim states it, fails: the sample image encrypts to an
    image of 2 by 2 pixels; [decrypt_image], run on an image of 3 by 1
    pixels, neither the size nor the pixel count of what the encryption
    produced, returns normally and displays an image of three pixels. *)
Lemma decrypt_image_no_shape_check :
  let shape := λ img : Image, (width img, height img, length (data img)) in
  let '(r1, σ1) := encrypt_image sample_state in
  let '(r2, σ2) := decrypt_image other_state in
  r1 = Ok () ∧ (l ← processed_image σ1; shape <$> heap σ1 !! l) = Some (2, 2, 4)%nat
  ∧ (l ← image other_state; shape <$> heap other_state !! l) = Some (3, 1, 3)%nat
  ∧ r2 = Ok () ∧ (l ← processed_image σ2; shape <$> heap σ2 !! l) = Some (3, 1, 3)%nat.
Proof. vm_compute. by repeat split. Qed.

Lemma decrypt_image_any_shape_witness :
  ∃ σ' l' dec,
    decrypt_image other_state = (Ok (), σ')
    ∧ processed_image σ' = Some l' ∧ heap σ' !! l' = Some dec
    ∧ width dec = width other_image ∧ height dec = height other_image
    ∧ length (data dec) = length (data other_image).
Proof.
  apply (@decrypt_image_any_shape lcg blank_filter other_state 0%nat other_image);
    compute_done.
Defined.

Lemma stage_order_witness :
  ∃ seed,
    generate_seed (password_entry sample_state) = Ok seed
    ∧ (∀ g, ∃ σ1 l1,
         encrypt_image (set_rng g sample_state) = (Ok (), σ1)
         ∧ processed_image σ1 = Some l1
         ∧ heap σ1 !! l1 =
             Some (mkImage (mode sample_image) (width sample_image) (height sample_image)
                     (Spec.Encrypt (data sample_image) seed (color_shift_var sample_state))))
    ∧ (∀ g, ∃ σ2 l2,
         decrypt_image (set_rng g sample_state) = (Ok (), σ2)
         ∧ processed_image σ2 = Some l2
         ∧ heap σ2 !! l2 =
             Some (mkImage (mode sample_image) (width sample_image) (height sample_image)
                     (Spec.Decrypt (data sample_image) seed (color_shift_var sample_state)))).
Proof.
  apply (@stage_order lcg blank_filter sample_state 0%nat sample_image); compute_done.
Defined.

(** C8, as the claim states it, fails: the seeds are fewer than the
    passwords, so different non-empty passwords do not always have
    different seeds. *)
Lemma seeds_not_injective :
  ¬ ∀ pw1 pw2 : str, pw1 ≠ [] → pw2 ≠ [] → pw1 ≠ pw2 → generate_seed pw1 ≠ generate_seed pw2.
Proof.
  intros Hinj.
  destruct seed_collision as (pw1 & pw2 & seed & Hlen1 & Hlen2 & Hne & Hs1 & Hs2).
  apply (Hinj pw1 pw2).
  - intros ->. discriminate Hlen1.
  - intros ->. discriminate Hlen2.
  - exact Hne.
  - by rewrite Hs1, Hs2.
Qed.

Lemma generate_seed_digest_witness :
  ∃ bytes,
    encode sample_password = Ok bytes
    ∧ generate_seed sample_password = Ok (SHA256.be_value (SHA256.digest bytes))
    ∧ length (SHA256.digest bytes) = 32%nat
    ∧ 0 ≤ SHA256.be_value (SHA256.digest bytes) < 2 ^ 256
    ∧ ∀ pw', pw' = sample_password → generate_seed pw' = generate_seed sample_password.
Proof.
  apply (generate_seed_digest sample_password). compute_done.
Defined.

Lemma stages_pure_witness :
  let σ2 := @set_rng lcg 99 (mainloop [Load sample_image] sample_state) in
  (∃ out σ1' σ2',
     shift_colors (data sample_image) 7 false sample_state = (Ok out, σ1')
     ∧ shift_colors (data sample_image) 7 false σ2 = (Ok out, σ2')
     ∧ rng σ1' = rng σ2')
  ∧ ∃ out σ1' σ2' l1' l2',
      shuffle_pixels 0%nat 7 false sample_state = (Ok l1', σ1')
      ∧ shuffle_pixels 1%nat 7 false σ2 = (Ok l2', σ2')
      ∧ heap σ1' !! l1' = Some out ∧ heap σ2' !! l2' = Some out
      ∧ rng σ1' = rng σ2'.
Proof.
  apply (@stages_pure lcg sample_state
           (@set_rng lcg 99 (mainloop [Load sample_image] sample_state))
           0%nat 1%nat sample_image 7 false); compute_done.
Defined.

Lemma encrypt_image_in_place_witness :
  (∃ seed σ1 l1,
     generate_seed (password_entry sample_state) = Ok seed
     ∧ encrypt_image sample_state = (Ok (), σ1)
     ∧ image σ1 = Some 0%nat
     ∧ heap σ1 !! 0%nat =
         Some (mkImage (mode sample_image) (width sample_image) (height sample_image)
                 (Spec.apply_shift (data sample_image) seed))
     ∧ processed_image σ1 = Some l1 ∧ l1 ≠ 0%nat ∧ heap sample_state !! l1 = None)
  ∧ ∃ σ' l',
      shuffle_pixels 0%nat 7 false sample_state = (Ok l', σ')
      ∧ heap sample_state !! l' = None ∧ is_Some (heap σ' !! l')
      ∧ heap σ' !! 0%nat = Some sample_image
      ∧ ∀ k, k ≠ l' → heap σ' !! k = heap sample_state !! k.
Proof.
  apply (@encrypt_image_in_place lcg blank_filter sample_state 0%nat sample_image 7 false);
    compute_done.
Defined.

(** The digest of "abc", the one-block example of FIPS 180-4, and of the
    empty message. *)
Example sha256_abc :
  SHA256.be_value (SHA256.digest [97; 98; 99])
  = 0xba7816bf8f01cfea414140de5dae2223b00361a396177a9cb410ff61f20015ad
  ∧ SHA256.be_value (SHA256.digest [])
    = 0xe3b0c44298fc1c149afbf4c8996fb92427ae41e4649b934ca495991b7852b855.
Proof. split; vm_compute; reflexivity. Qed.

(** The scenario of the specification, as a session: the 2 by 2 image is
    loaded, "test123" typed and Encrypt pressed with the checkbox ticked;
    the image displayed has four pixels with channels in [0, 255].  It is
    then opened in its turn and Decrypt pressed: the image displayed is the
    one loaded first.  Along the way [self.image] was changed in place, and
    the seed is the SHA-256 digest of the password. *)
Example scenario :
  let seed := 0xecd71870d1963316a97e3ac3408c9835ad8cf0f3c1bc703527c30265534f75ae in
  let σ1 := mainloop [Load sample_image; Type_password sample_password; Press_encrypt] (init 0) in
  let enc := default sample_image (l ← processed_image σ1; heap σ1 !! l) in
  let σ2 := mainloop [Load enc; Press_decrypt] σ1 in
  generate_seed sample_password = Ok seed
  ∧ warnings σ2 = []
  ∧ data enc = Spec.Encrypt (data sample_image) seed true
  ∧ length (data enc) = 4%nat ∧ bool_decide (Forall valid_pixel (data enc)) = true
  ∧ (data <$> (l ← image σ1; heap σ1 !! l)) = Some (Spec.apply_shift (data sample_image) seed)
  ∧ (l ← processed_image σ2; heap σ2 !! l) = Some sample_image.
Proof. vm_compute. by repeat split. Qed.

End SampleRun.

(** * Further properties *)

(** ** The seed: when it is raised *)

Lemma utf8_char_None c : utf8_char c = None → ¬ scalar_value c.
Proof.
  unfold scalar_value, utf8_char. intros Hc Hs.
  repeat (case_match; try done); lia.
Qed.

Lemma encode_Raise s e : encode s = Raise e → e = UnicodeEncodeError ∧ ¬ well_formed s.
Proof.
  induction s as [|c s IH]; cbn [encode]; [done|].
  destruct (utf8_char c) as [bs|] eqn:Hc.
  - destruct (encode s) as [rest|e']; [done|]. intros [= <-].
    destruct (IH eq_refl) as [-> Hs]. split; [done|].
    intros Hwf. apply Hs. by apply Forall_cons in Hwf as [_ ?].
  - intros [= <-]. split; [done|].
    intros Hwf. apply Forall_cons in Hwf as [Hsc _]. by apply (utf8_char_None c).
Qed.

(** [generate_seed] returns a number below 2^256 for a password of Unicode
    scalar values and raises [UnicodeEncodeError] for any other; [int]
    never fails on the digest. *)
Theorem generate_seed_outcome (pw : str) :
  (well_formed pw ∧ ∃ seed, generate_seed pw = Ok seed ∧ 0 ≤ seed < 2 ^ 256)
  ∨ (¬ well_formed pw ∧ generate_seed pw = Raise UnicodeEncodeError).
Proof.
  destruct (decide (well_formed pw)) as [Hwf|Hwf].
  - left. split; [done|]. destruct (generate_seed_Ok pw Hwf) as (bytes & _ & Hseed).
    eexists. split; [exact Hseed|]. by apply (generate_seed_range pw).
  - right. split; [done|]. unfold generate_seed.
    destruct (encode pw) as [bytes|e] eqn:Henc.
    + exfalso. apply Hwf. clear Hwf. revert bytes Henc.
      induction pw as [|c pw IH]; intros bytes; [constructor|]. cbn [encode].
      destruct (utf8_char c) as [bs|] eqn:Hc; [|done].
      destruct (encode pw) as [rest|]; [|done]. intros _.
      constructor; [|by eapply IH].
      destruct (decide (scalar_value c)) as [|Hn]; [done|]. exfalso.
      revert Hc. unfold utf8_char, scalar_value in *.
      repeat (case_match; try done); lia.
    + by destruct (encode_Raise pw e Henc) as [-> _].
Qed.

(** ** The channel shift on any integers, and on longer lists *)

Section MoreShift.
Context {R : Random}.

Lemma sub_add_shift_wrap p s : Spec.sub_shift (Spec.add_shift p s) s = wrap_pixel p.
Proof.
  destruct p as [[r g] b], s as [[sr sg] sb]. cbn.
  rewrite !Zminus_mod_idemp_l. repeat f_equal; lia.
Qed.

Lemma add_sub_shift p s : valid_pixel p → Spec.add_shift (Spec.sub_shift p s) s = p.
Proof.
  destruct p as [[r g] b], s as [[sr sg] sb]. unfold valid_pixel, valid_channel.
  intros (Hr & Hg & Hb). cbn.
  rewrite !Zplus_mod_idemp_l.
  replace (r - sr + sr) with r by lia.
  replace (g - sg + sg) with g by lia.
  replace (b - sb + sb) with b by lia.
  by rewrite !Z.mod_small by lia.
Qed.

Lemma apply_reverse_shift pixels seed :
  Forall valid_pixel pixels → Spec.apply_shift (Spec.reverse_shift pixels seed) seed = pixels.
Proof.
  intros Hv. unfold Spec.apply_shift. rewrite reverse_shift_length.
  unfold Spec.reverse_shift, Spec.shift_values.
  generalize (random_seed seed). induction Hv as [|p pixels Hp Hv IH]; intros g; [done|].
  cbn [length Spec.shift_values_from].
  destruct (randint 0 255 g) as [sr g1].
  destruct (randint 0 255 g1) as [sg g2].
  destruct (randint 0 255 g2) as [sb g3].
  cbn [zip_with]. rewrite add_sub_shift by done. f_equal. apply IH.
Qed.

Lemma reverse_apply_shift_wrap pixels seed :
  Spec.reverse_shift (Spec.apply_shift pixels seed) seed = wrap_pixel <$> pixels.
Proof.
  unfold Spec.reverse_shift. rewrite apply_shift_length.
  unfold Spec.apply_shift, Spec.shift_values.
  generalize (random_seed seed). induction pixels as [|p pixels IH]; intros g; [done|].
  cbn [length Spec.shift_values_from].
  destruct (randint 0 255 g) as [sr g1].
  destruct (randint 0 255 g1) as [sg g2].
  destruct (randint 0 255 g2) as [sb g3].
  cbn [zip_with fmap list_fmap]. rewrite sub_add_shift_wrap. f_equal. apply IH.
Qed.

Lemma shift_values_from_app n m g :
  ∃ g', Spec.shift_values_from (n + m) g
        = Spec.shift_values_from n g ++ Spec.shift_values_from m g'.
Proof.
  revert g. induction n as [|n IH]; intros g; [by exists g|].
  cbn [Nat.add Spec.shift_values_from].
  destruct (randint 0 255 g) as [sr g1].
  destruct (randint 0 255 g1) as [sg g2].
  destruct (randint 0 255 g2) as [sb g3].
  destruct (IH g3) as [g' ->]. by exists g'.
Qed.

(** [shift_colors(reverse=True)] followed by [shift_colors] with the same
    seed gives the pixels back as well: the reverse shift can be applied
    first. *)
Theorem shift_colors_reverse_first (p : list pixel) (s : Z) (σ σ' : State) :
  Forall valid_pixel p →
  ∃ unshifted,
    (shift_colors p s true σ).1 = Ok unshifted
    ∧ Forall valid_pixel unshifted
    ∧ (shift_colors unshifted s false σ').1 = Ok p.
Proof.
  intros Hp. exists (Spec.reverse_shift p s). rewrite !shift_colors_run. cbn [fst].
  split; [done|]. split; [apply reverse_shift_valid|].
  f_equal. by apply apply_reverse_shift.
Qed.

(** On tuples of any integers, [shift_colors] still returns channels in
    [0, 255], and the reverse shift of the shifted pixels is the input with
    every channel reduced modulo 256. *)
Theorem shift_colors_any_integers (p : list pixel) (s : Z) (reverse : bool) (σ σ' : State) :
  ∃ out shifted,
    (shift_colors p s reverse σ).1 = Ok out
    ∧ length out = length p ∧ Forall valid_pixel out
    ∧ (shift_colors p s false σ).1 = Ok shifted
    ∧ (shift_colors shifted s true σ').1 = Ok (wrap_pixel <$> p).
Proof.
  eexists _, _. rewrite !shift_colors_run. cbn [fst].
  split; [done|]. split.
  { destruct reverse; [apply reverse_shift_length|apply apply_shift_length]. }
  split.
  { destruct reverse; [apply reverse_shift_valid|apply apply_shift_valid]. }
  split; [done|]. f_equal. apply reverse_apply_shift_wrap.
Qed.

(** The shift of a pixel depends on its position and the seed only: the
    pixels of a list are shifted the same way when more pixels follow. *)
Theorem shift_colors_prefix (p q : list pixel) (s : Z) (reverse : bool) (σ σ' : State) :
  ∃ out_p out_q,
    (shift_colors p s reverse σ).1 = Ok out_p
    ∧ (shift_colors (p ++ q) s reverse σ').1 = Ok (out_p ++ out_q)
    ∧ length out_p = length p ∧ length out_q = length q.
Proof.
  rewrite !shift_colors_run. cbn [fst].
  assert (∀ f : pixel → Z * Z * Z → pixel,
            ∃ out_q, zip_with f (p ++ q) (Spec.shift_values s (length (p ++ q)))
                     = zip_with f p (Spec.shift_values s (length p)) ++ out_q
                     ∧ length out_q = length q) as Hf.
  { intros f. unfold Spec.shift_values. rewrite length_app.
    destruct (shift_values_from_app (length p) (length q) (random_seed s)) as [g' ->].
    eexists. rewrite zip_with_app by (by rewrite shift_values_from_length).
    split; [done|]. rewrite length_zip_with, shift_values_from_length. lia. }
  destruct reverse.
  - destruct (Hf Spec.sub_shift) as (out_q & Heq & Hlen).
    exists (Spec.reverse_shift p s), out_q.
    split; [done|]. split; [unfold Spec.reverse_shift; by rewrite Heq|].
    by rewrite reverse_shift_length.
  - destruct (Hf Spec.add_shift) as (out_q & Heq & Hlen).
    exists (Spec.apply_shift p s), out_q.
    split; [done|]. split; [unfold Spec.apply_shift; by rewrite Heq|].
    by rewrite apply_shift_length.
Qed.

End MoreShift.

(** ** The shuffle: what it keeps *)

Section MoreShuffle.
Context {R : Random} {P : Resample}.
Implicit Types (σ : State) (l : loc) (img : Image).

#[local] Arguments generate_seed : simpl never.

Lemma shuffle_unshuffle (pixels : list pixel) seed :
  Spec.shuffle (Spec.unshuffle pixels seed) seed = pixels.
Proof.
  unfold Spec.shuffle. rewrite unshuffle_length_spec.
  pose proof (permutation_length seed (length pixels)) as Hplen.
  pose proof (permutation_NoDup seed (length pixels)) as Hnd.
  pose proof (permutation_Permutation seed (length pixels)) as Hperm.
  apply list_eq_same_length with (length pixels); [done|by rewrite length_fmap|].
  intros k x y Hk Hx Hy.
  rewrite list_lookup_fmap in Hx.
  destruct (Spec.permutation seed (length pixels) !! k) as [i|] eqn:Hi; [|done].
  cbn in Hx. injection Hx as <-.
  assert (i < length pixels)%nat as Hilt.
  { apply list_elem_of_lookup_2 in Hi. rewrite Hperm in Hi. apply elem_of_seq in Hi. lia. }
  unfold Spec.unshuffle.
  erewrite list_lookup_total_correct;
    [|by rewrite list_lookup_fmap, lookup_seq_lt by done].
  change (0 + i)%nat with i.
  rewrite (inverse_at_lookup _ k i Hnd Hi). by apply list_lookup_total_correct.
Qed.

Lemma unshuffle_Permutation_spec (pixels : list pixel) seed :
  Spec.unshuffle pixels seed ≡ₚ pixels.
Proof.
  rewrite <-(shuffle_unshuffle pixels seed) at 2.
  by rewrite shuffle_Permutation_spec.
Qed.

Lemma shuffled_image_shuffle img seed :
  shuffled_image (shuffled_image img seed true) seed false = img.
Proof.
  unfold shuffled_image. cbn [data mode width height].
  rewrite shuffle_unshuffle. by destruct img.
Qed.

(** [shuffle_pixels] with [reverse=True] followed by [shuffle_pixels] with
    the same seed returns an image equal to the input as well: an image
    can be unshuffled first and shuffled back. *)
Theorem shuffle_pixels_reverse_first σ l img seed :
  heap σ !! l = Some img → wf_image img →
  ∃ σ1 l1 unshuffled,
    shuffle_pixels l seed true σ = (Ok l1, σ1) ∧ heap σ1 !! l1 = Some unshuffled
    ∧ ∀ σ2 l2, heap σ2 !! l2 = Some unshuffled →
        ∃ σ3 l3, shuffle_pixels l2 seed false σ2 = (Ok l3, σ3) ∧ heap σ3 !! l3 = Some img.
Proof.
  intros Hl Hwf. eexists _, _, _. split; [by apply shuffle_pixels_run|].
  cbn. split; [apply lookup_insert_eq|].
  intros σ2 l2 Hl2. eexists _, _. split.
  - apply shuffle_pixels_run; [done|]. by apply shuffled_image_wf.
  - cbn. rewrite lookup_insert_eq. f_equal. apply shuffled_image_shuffle.
Qed.

(** [shuffle_pixels], in either direction, only moves pixels: the image
    returned has the mode of the input and the same pixels with the same
    multiplicities.  In particular an image of one colour is returned
    unchanged. *)
Theorem shuffle_pixels_rearranges σ l img seed reverse :
  heap σ !! l = Some img → wf_image img →
  ∃ σ' l' out,
    shuffle_pixels l seed reverse σ = (Ok l', σ') ∧ heap σ' !! l' = Some out
    ∧ mode out = mode img
    ∧ data out ≡ₚ data img
    ∧ (∀ p, data img = replicate (length (data img)) p → out = img).
Proof.
  intros Hl Hwf. eexists _, _, _. split; [by apply shuffle_pixels_run|].
  cbn. split; [apply lookup_insert_eq|]. split; [done|].
  assert ((if reverse then Spec.unshuffle (data img) seed else Spec.shuffle (data img) seed)
          ≡ₚ data img) as Hperm.
  { destruct reverse; [apply unshuffle_Permutation_spec|apply shuffle_Permutation_spec]. }
  split; [done|].
  intros p Hp. unfold shuffled_image.
  rewrite <-(replicate_Permutation (length (data img)) p _);
    [rewrite <-Hp; by destruct img|].
  rewrite Hperm. by rewrite <-Hp.
Qed.

End MoreShuffle.

(** ** The two buttons: the other cases *)

Section MoreButtons.
Context {R : Random} {P : Resample}.
Implicit Types (σ : State) (l : loc) (img : Image).

#[local] Arguments generate_seed : simpl never.

(** With no image loaded, [encrypt_image] and [decrypt_image] do nothing
    but show the warning "No image loaded!", whatever the password entry
    holds: this check comes before the one on the password. *)
Theorem no_image_loaded σ :
  image σ = None →
  ∃ σ',
    encrypt_image σ = (Ok (), σ') ∧ decrypt_image σ = (Ok (), σ')
    ∧ warnings σ' = ("Warning", "No image loaded!") :: warnings σ
    ∧ heap σ' = heap σ ∧ rng σ' = rng σ
    ∧ image σ' = None ∧ processed_image σ' = processed_image σ
    ∧ tk_image σ' = tk_image σ.
Proof.
  intros Hi.
  exists (set_warnings (("Warning", "No image loaded!") :: warnings σ) σ).
  unfold encrypt_image, decrypt_image, showwarning.
  unfold mbind, M_bind, bind, gets, modify. rewrite Hi. by repeat split.
Qed.

(** With an image loaded and a password that UTF-8 cannot encode (a lone
    surrogate), both methods raise [UnicodeEncodeError] out of
    [generate_seed] and leave the whole state as it was: no warning, no
    seeding, no new image. *)
Theorem unencodable_password σ l :
  image σ = Some l → ¬ well_formed (password_entry σ) →
  encrypt_image σ = (Raise UnicodeEncodeError, σ)
  ∧ decrypt_image σ = (Raise UnicodeEncodeError, σ).
Proof.
  intros Hi Hpw. destruct (generate_seed_outcome (password_entry σ)) as [[Hwf _]|[_ Hseed]];
    [done|]. by apply (generate_seed_raises σ l).
Qed.

(** [decrypt_image] never writes to the loaded image, whatever the
    checkbox: the image it displays is a new object, and every object that
    existed, [self.image] among them, is what it was. *)
Theorem decrypt_image_allocates σ l img :
  image σ = Some l → heap σ !! l = Some img → wf_image img → fits img →
  password_entry σ ≠ [] → well_formed (password_entry σ) →
  ∃ σ' l',
    decrypt_image σ = (Ok (), σ')
    ∧ processed_image σ' = Some l' ∧ heap σ !! l' = None ∧ is_Some (heap σ' !! l')
    ∧ image σ' = Some l ∧ heap σ' !! l = Some img
    ∧ ∀ k, k ≠ l' → heap σ' !! k = heap σ !! k.
Proof.
  intros Hi Hl Hwf Hf Hpw Hwfpw.
  destruct (generate_seed_Ok _ Hwfpw) as (bytes & _ & Hseed).
  destruct (decrypt_image_run σ l img _ Hi Hl Hwf Hf Hpw Hseed)
    as (σ' & Hrun & Hheap & Himg & Hproc & _).
  assert (heap σ !! fresh (dom (heap σ)) = None) as Hfresh.
  { apply not_elem_of_dom, is_fresh. }
  assert (l ≠ fresh (dom (heap σ))) as Hne.
  { intros Heq. rewrite <-Heq in Hfresh. congruence. }
  eexists σ', _. split; [exact Hrun|]. split; [exact Hproc|]. split; [exact Hfresh|].
  rewrite Hheap. split; [by rewrite lookup_insert_eq|]. split; [exact Himg|].
  split; [by rewrite lookup_insert_ne|].
  intros k Hk. by rewrite lookup_insert_ne.
Qed.

Lemma shifted_unshifted_image img seed shift :
  wf_image img → shifted_image (unshifted_image img seed shift) seed shift = img.
Proof.
  intros [_ Hv]. destruct shift; [|done]. unfold unshifted_image, shifted_image.
  cbn [data mode width height]. rewrite apply_reverse_shift by done. by destruct img.
Qed.

Lemma unshifted_image_wf img seed shift : wf_image img → wf_image (unshifted_image img seed shift).
Proof.
  destruct shift; [|done]. intros [Hlen Hv]. split; cbn.
  - by rewrite reverse_shift_length.
  - apply reverse_shift_valid.
Qed.

(** The round trip the other way: when [decrypt_image] has run on a loaded
    image, [encrypt_image], run with the same password and checkbox
    setting on an application that holds the image [decrypt_image]
    produced, displays the image [decrypt_image] started from. *)
Theorem decrypt_encrypt_roundtrip σ l img :
  image σ = Some l → heap σ !! l = Some img → wf_image img → fits img →
  password_entry σ ≠ [] → well_formed (password_entry σ) →
  ∃ σ1 l1 dec,
    decrypt_image σ = (Ok (), σ1)
    ∧ processed_image σ1 = Some l1 ∧ heap σ1 !! l1 = Some dec
    ∧ ∀ σ2 l2,
        image σ2 = Some l2 → heap σ2 !! l2 = Some dec →
        password_entry σ2 = password_entry σ →
        color_shift_var σ2 = color_shift_var σ →
        ∃ σ3 l3,
          encrypt_image σ2 = (Ok (), σ3)
          ∧ processed_image σ3 = Some l3 ∧ heap σ3 !! l3 = Some img.
Proof.
  intros Hi Hl Hwf Hf Hpw Hwfpw.
  destruct (generate_seed_Ok _ Hwfpw) as (bytes & _ & Hseed).
  destruct (decrypt_image_run σ l img _ Hi Hl Hwf Hf Hpw Hseed)
    as (σ1 & Hrun & Hheap & _ & Hproc & _).
  pose proof (shuffled_image_wf img (SHA256.be_value (SHA256.digest bytes)) true Hwf) as Hu.
  eexists σ1, _, _. split; [exact Hrun|]. split; [exact Hproc|].
  split; [rewrite Hheap; apply lookup_insert_eq|].
  intros σ2 l2 Hi2 Hl2 Hpw2 Hcs2.
  rewrite <-Hpw2 in Hpw, Hseed.
  edestruct (encrypt_image_run σ2 l2) as (σ3 & Hrun3 & Hheap3 & _ & Hproc3 & _);
    [exact Hi2|exact Hl2| | |exact Hpw|exact Hseed|].
  { by apply unshifted_image_wf. }
  { destruct Hf. unfold fits, unshifted_image. by destruct (color_shift_var σ). }
  eexists σ3, _. split; [exact Hrun3|]. split; [exact Hproc3|].
  rewrite Hheap3, lookup_insert_eq, Hcs2. f_equal.
  rewrite shifted_unshifted_image by done. apply shuffled_image_shuffle.
Qed.

(** Decrypting with the checkbox in the other position raises nothing and
    does not give the image back: after an encryption with the box ticked
    a decryption with the box unticked displays the shifted pixels,
    unshuffled; after an encryption with the box unticked a decryption
    with the box ticked displays the pixels shifted back once too
    often. *)
Theorem checkbox_mismatch σ l img :
  image σ = Some l → heap σ !! l = Some img → wf_image img → fits img →
  password_entry σ ≠ [] → well_formed (password_entry σ) →
  ∃ seed σ1 l1 enc,
    generate_seed (password_entry σ) = Ok seed
    ∧ encrypt_image σ = (Ok (), σ1)
    ∧ processed_image σ1 = Some l1 ∧ heap σ1 !! l1 = Some enc
    ∧ ∀ σ2 l2,
        image σ2 = Some l2 → heap σ2 !! l2 = Some enc →
        password_entry σ2 = password_entry σ →
        color_shift_var σ2 = negb (color_shift_var σ) →
        ∃ σ3 l3,
          decrypt_image σ2 = (Ok (), σ3) ∧ processed_image σ3 = Some l3
          ∧ heap σ3 !! l3 =
              Some (mkImage (mode img) (width img) (height img)
                      (if color_shift_var σ
                       then Spec.apply_shift (data img) seed
                       else Spec.reverse_shift (data img) seed)).
Proof.
  intros Hi Hl Hwf Hf Hpw Hwfpw.
  destruct (generate_seed_Ok _ Hwfpw) as (bytes & _ & Hseed).
  destruct (encrypt_image_run σ l img _ Hi Hl Hwf Hf Hpw Hseed)
    as (σ1 & Hrun & Hheap & _ & Hproc & _).
  pose proof (shifted_image_wf img (SHA256.be_value (SHA256.digest bytes))
                (color_shift_var σ) Hwf) as Hsrc.
  eexists _, σ1, _, _. split; [exact Hseed|]. split; [exact Hrun|]. split; [exact Hproc|].
  split; [rewrite Hheap; apply lookup_insert_eq|].
  intros σ2 l2 Hi2 Hl2 Hpw2 Hcs2.
  rewrite <-Hpw2 in Hpw, Hseed.
  edestruct (decrypt_image_run σ2 l2) as (σ3 & Hrun3 & Hheap3 & _ & Hproc3 & _);
    [exact Hi2|exact Hl2| | |exact Hpw|exact Hseed|].
  { by apply shuffled_image_wf. }
  { destruct Hf. unfold fits, shifted_image. by destruct (color_shift_var σ). }
  eexists σ3, _. split; [exact Hrun3|]. split; [exact Hproc3|].
  rewrite Hheap3, lookup_insert_eq, Hcs2. f_equal.
  rewrite shuffled_image_unshuffle.
  unfold unshifted_image, shifted_image. by destruct (color_shift_var σ), img.
Qed.

(** Both buttons work on [self.image], never on the image displayed.
    After [encrypt_image], pressing Encrypt again encrypts the loaded image
    as the first press left it, shifted once more when the box is ticked,
    and pressing Decrypt decrypts that same loaded image, not the
    encrypted one: with the box unticked it displays the loaded pixels
    unshuffled. *)
Theorem buttons_read_self_image σ l img :
  image σ = Some l → heap σ !! l = Some img → wf_image img → fits img →
  password_entry σ ≠ [] → well_formed (password_entry σ) →
  ∃ seed σ1,
    generate_seed (password_entry σ) = Ok seed
    ∧ encrypt_image σ = (Ok (), σ1)
    ∧ let shift := color_shift_var σ in
      let src := if shift then Spec.apply_shift (data img) seed else data img in
      (data <$> heap σ1 !! l) = Some src
      ∧ (∃ σ2 l2,
           encrypt_image σ1 = (Ok (), σ2) ∧ processed_image σ2 = Some l2
           ∧ (data <$> heap σ2 !! l2) = Some (Spec.Encrypt src seed shift)
           ∧ (data <$> heap σ2 !! l)
             = Some (if shift then Spec.apply_shift src seed else src))
      ∧ (∃ σ3 l3,
           decrypt_image σ1 = (Ok (), σ3) ∧ processed_image σ3 = Some l3
           ∧ (data <$> heap σ3 !! l3) = Some (Spec.Decrypt src seed shift)).
Proof.
  intros Hi Hl Hwf Hf Hpw Hwfpw.
  destruct (generate_seed_Ok _ Hwfpw) as (bytes & _ & Hseed).
  set (seed := SHA256.be_value (SHA256.digest bytes)) in *.
  destruct (encrypt_image_run σ l img _ Hi Hl Hwf Hf Hpw Hseed)
    as (σ1 & Hrun & Hheap & Hi1 & _ & _ & _ & Hpw1 & Hcs1).
  pose proof (shifted_image_wf img seed (color_shift_var σ) Hwf) as Hsrc.
  assert (fits (shifted_image img seed (color_shift_var σ))) as Hfsrc.
  { destruct Hf. unfold fits, shifted_image. by destruct (color_shift_var σ). }
  assert (fresh (dom (heap σ)) ≠ l) as Hne.
  { intros Heq. pose proof (is_fresh (dom (heap σ))) as Hfr.
    rewrite Heq in Hfr. apply Hfr, elem_of_dom. eauto. }
  assert (heap σ1 !! l = Some (shifted_image img seed (color_shift_var σ))) as Hl1.
  { by rewrite Hheap, lookup_insert_ne, lookup_insert_eq. }
  rewrite <-Hpw1 in Hpw, Hseed.
  exists seed, σ1. split; [by rewrite <-Hpw1|]. split; [exact Hrun|]. cbn zeta.
  split; [|split].
  - rewrite Hl1. unfold shifted_image. by destruct (color_shift_var σ).
  - destruct (encrypt_image_run σ1 l _ _ Hi1 Hl1 Hsrc Hfsrc Hpw Hseed)
      as (σ2 & Hrun2 & Hheap2 & _ & Hproc2 & _).
    eexists σ2, _. split; [exact Hrun2|]. split; [exact Hproc2|].
    rewrite Hheap2, lookup_insert_eq, Hcs1.
    rewrite lookup_insert_ne, lookup_insert_eq.
    2:{ intros Heq. pose proof (is_fresh (dom (heap σ1))) as Hfr.
        rewrite Heq in Hfr. apply Hfr, elem_of_dom. eauto. }
    unfold shuffled_image, shifted_image, Spec.Encrypt.
    by destruct (color_shift_var σ).
  - destruct (decrypt_image_run σ1 l _ _ Hi1 Hl1 Hsrc Hfsrc Hpw Hseed)
      as (σ3 & Hrun3 & Hheap3 & _ & Hproc3 & _).
    eexists σ3, _. split; [exact Hrun3|]. split; [exact Hproc3|].
    rewrite Hheap3, lookup_insert_eq, Hcs1.
    unfold unshifted_image, shuffled_image, shifted_image, Spec.Decrypt.
    by destruct (color_shift_var σ).
Qed.

End MoreButtons.

(** ** Loading, and what every session keeps *)

Section Sessions.
Context {R : Random} {P : Resample}.
Implicit Types (σ : State) (l : loc) (img : Image) (d : Desktop).

#[local] Arguments generate_seed : simpl never.

Lemma load_image_run σ opened :
  let l := fresh (dom (heap σ)) in
  load_image opened σ =
  (Ok (),
   set_tk_image (Some (Image_thumbnail opened))
     (set_processed_image (Some l)
        (set_image (Some l) (set_heap (<[l:=Image_thumbnail opened]> (heap σ)) σ)))).
Proof.
  unfold load_image, display_image, thumbnail.
  unfold mbind, M_bind, bind, mret, M_ret, ret, modify, deref, store, alloc. cbn.
  rewrite !lookup_insert_eq. cbn. rewrite lookup_insert_eq.
  by rewrite insert_insert_eq.
Qed.

(** [load_image] keeps the image opened only when it fits the box of the
    canvas: a larger one is replaced, in the object [self.image] refers to,
    by its thumbnail, so that the full-size pixels are in no object
    afterwards.  [self.processed_image] is the same object as
    [self.image], and objects that existed are left alone. *)
Theorem load_image_thumbnails σ opened :
  ∃ σ' l,
    load_image opened σ = (Ok (), σ')
    ∧ heap σ !! l = None
    ∧ image σ' = Some l ∧ processed_image σ' = Some l
    ∧ heap σ' !! l = Some (if decide (fits opened) then opened else resample opened)
    ∧ tk_image σ' = heap σ' !! l
    ∧ (∀ k, k ≠ l → heap σ' !! k = heap σ !! k)
    ∧ warnings σ' = warnings σ ∧ rng σ' = rng σ.
Proof.
  eexists _, _. split; [apply load_image_run|]. cbn.
  split; [apply not_elem_of_dom, is_fresh|]. split; [done|]. split; [done|].
  rewrite lookup_insert_eq. split; [done|]. split; [done|]. split; [|done].
  intros k Hk. by rewrite lookup_insert_ne.
Qed.

(** What a press of Encrypt or Decrypt comes to, in a state that satisfies
    the invariant. *)
Lemma press_outcome (decrypt : bool) σ :
  loaded_ok σ →
  let m := if decrypt then decrypt_image else encrypt_image in
  (∃ message, m σ = showwarning "Warning" message σ)
  ∨ (m σ = (Raise UnicodeEncodeError, σ) ∧ ¬ well_formed (password_entry σ))
  ∨ ∃ σ' l l' src out,
      m σ = (Ok (), σ') ∧ image σ' = Some l ∧ heap σ' !! l = Some src
      ∧ wf_image src ∧ fits src
      ∧ processed_image σ' = Some l' ∧ heap σ' !! l' = Some out ∧ tk_image σ' = Some out.
Proof.
  intros Hσ m. subst m. destruct (image σ) as [l|] eqn:Hi.
  2:{ left. exists "No image loaded!". destruct decrypt;
        unfold encrypt_image, decrypt_image, mbind, M_bind, bind, gets; by rewrite Hi. }
  destruct (Hσ l Hi) as (img & Hl & Hwf & Hf).
  destruct (decide (password_entry σ = [])) as [Hpw|Hne].
  { left. exists "Password is required!". destruct decrypt;
      unfold encrypt_image, decrypt_image, mbind, M_bind, bind, gets; by rewrite Hi, Hpw. }
  destruct (generate_seed_outcome (password_entry σ)) as [[_ (seed & Hseed & _)]|[Hnwf Hseed]].
  2:{ right. left. split; [|done].
      destruct (generate_seed_raises σ l _ Hi Hseed). by destruct decrypt. }
  right. right.
  assert (heap σ !! fresh (dom (heap σ)) = None) as Hfresh.
  { apply not_elem_of_dom, is_fresh. }
  assert (fresh (dom (heap σ)) ≠ l) as Hfl.
  { intros Heq. rewrite Heq in Hfresh. congruence. }
  destruct decrypt.
  - destruct (decrypt_image_run σ l img seed Hi Hl Hwf Hf Hne Hseed)
      as (σ' & Hrun & Hheap & Hi' & Hproc & Htk & _).
    eexists σ', l, _, img, _. split; [exact Hrun|]. split; [exact Hi'|].
    rewrite Hheap. split; [by rewrite lookup_insert_ne|]. split; [done|]. split; [done|].
    split; [exact Hproc|]. split; [apply lookup_insert_eq|exact Htk].
  - destruct (encrypt_image_run σ l img seed Hi Hl Hwf Hf Hne Hseed)
      as (σ' & Hrun & Hheap & Hi' & Hproc & Htk & _).
    eexists σ', l, _, _, _. split; [exact Hrun|]. split; [exact Hi'|].
    rewrite Hheap. split; [by rewrite lookup_insert_ne, lookup_insert_eq|].
    split; [by apply shifted_image_wf|].
    split; [destruct Hf; unfold fits, shifted_image; by destruct (color_shift_var σ)|].
    split; [exact Hproc|]. split; [apply lookup_insert_eq|exact Htk].
Qed.

Lemma callback_canvas_ok e σ :
  wf_event e → loaded_ok σ → canvas_ok σ → canvas_ok (callback e σ).2.
Proof.
  intros He Hσ Hc. destruct e as [opened|s|b| |]; cbn [callback].
  - rewrite load_image_run. cbn. split; cbn; [by rewrite lookup_insert_eq|eauto].
  - exact Hc.
  - exact Hc.
  - destruct (press_outcome false σ Hσ) as [[msg ->]|[[-> _]|(σ' & l & l' & src & out & Hrun)]];
      [exact Hc|exact Hc|].
    destruct Hrun as (-> & Hi & _ & _ & _ & Hproc & Hout & Htk).
    split; cbn; [by rewrite Htk, Hproc|by rewrite Htk].
  - destruct (press_outcome true σ Hσ) as [[msg ->]|[[-> _]|(σ' & l & l' & src & out & Hrun)]];
      [exact Hc|exact Hc|].
    destruct Hrun as (-> & Hi & _ & _ & _ & Hproc & Hout & Htk).
    split; cbn; [by rewrite Htk, Hproc|by rewrite Htk].
Qed.

Lemma button_ok a d :
  wf_action a →
  loaded_ok (app_state d) ∧ canvas_ok (app_state d) →
  loaded_ok (app_state (button a d).2) ∧ canvas_ok (app_state (button a d).2).
Proof.
  intros Ha [Hl Hc].
  assert (∀ e, wf_event e →
            loaded_ok (app_state (in_app (callback e) d).2)
            ∧ canvas_ok (app_state (in_app (callback e) d).2)) as Hdo.
  { intros e He. unfold in_app.
    pose proof (callback_loaded_ok e _ He Hl). pose proof (callback_canvas_ok e _ He Hl Hc).
    by destruct (callback e (app_state d)). }
  destruct a as [e|file_path opened|url fetched|file_path written]; cbn [button wf_action] in *.
  - by apply Hdo.
  - unfold load_image_dialog. destruct (decide (file_path = "")); [done|].
    apply (Hdo (Load opened) Ha).
  - unfold load_from_url. destruct url as [url|]; [|done].
    destruct (decide (url = "")); [done|]. destruct fetched as [opened|e]; [|done].
    specialize (Hdo (Load opened) Ha). unfold in_app in Hdo. cbn [callback] in Hdo.
    by destruct (load_image opened (app_state d)) as [[[]|e] σ'].
  - unfold save_image. destruct (processed_image (app_state d)) as [l|]; [|done].
    destruct (decide (file_path = "")); [done|].
    by destruct (heap (app_state d) !! l), written.
Qed.

(** Whatever the user does, through the two buttons, the password entry,
    the checkbox, the two loading dialogs and the Save button, the
    application ends in a state where [self.image], when set, is a
    well-formed image that fits the box of the canvas, and where the canvas
    shows the pixels [self.processed_image] holds at that moment. *)
Theorem session_invariant actions g :
  Forall wf_action actions →
  loaded_ok (app_state (session actions (start g)))
  ∧ canvas_ok (app_state (session actions (start g))).
Proof.
  intros Ha.
  assert (loaded_ok (app_state (start g)) ∧ canvas_ok (app_state (start g))) as Hstart.
  { split; [apply init_loaded_ok|]. split; [done|]. cbn. by intros [? ?]. }
  revert Hstart. generalize (start g).
  induction Ha as [|a actions Ha _ IH]; intros d Hd; [done|].
  cbn [session]. by apply IH, button_ok.
Qed.

(** No callback of the application fails on its own data: after any
    session, an event either runs to its end or, for a password that
    UTF-8 cannot encode, raises [UnicodeEncodeError] and changes nothing.
    No index is ever out of range and [putdata] is never given too many
    entries. *)
Theorem callback_never_fails actions g e :
  Forall wf_action actions → wf_event e →
  let σ := app_state (session actions (start g)) in
  (callback e σ).1 = Ok ()
  ∨ (callback e σ = (Raise UnicodeEncodeError, σ) ∧ ¬ well_formed (password_entry σ)).
Proof.
  intros Ha He σ. destruct (session_invariant actions g Ha) as [Hl _]. fold σ in Hl.
  destruct e as [opened|s|b| |]; cbn [callback].
  - left. by rewrite load_image_run.
  - by left.
  - by left.
  - destruct (press_outcome false σ Hl) as [[msg ->]|[Hr|(σ' & ? & ? & ? & ? & -> & _)]];
      [by left|by right|by left].
  - destruct (press_outcome true σ Hl) as [[msg ->]|[Hr|(σ' & ? & ? & ? & ? & -> & _)]];
      [by left|by right|by left].
Qed.

End Sessions.

(** ** Saving and loading from a URL *)

Section Files.
Context {R : Random} {P : Resample}.
Implicit Types (σ : State) (l : loc) (img : Image) (d : Desktop).

#[local] Arguments generate_seed : simpl never.

(** With nothing displayed yet, [save_image] only shows the warning "No
    image to save!": the file dialog is not opened, so whatever path and
    file system there are, nothing is written and no information box is
    shown. *)
Theorem save_image_nothing_to_save d file_path written :
  processed_image (app_state d) = None →
  ∃ d',
    save_image file_path written d = (Ok (), d')
    ∧ warnings (app_state d') = ("Warning", "No image to save!") :: warnings (app_state d)
    ∧ saves d' = saves d ∧ infos d' = infos d ∧ errors d' = errors d
    ∧ heap (app_state d') = heap (app_state d)
    ∧ image (app_state d') = image (app_state d)
    ∧ tk_image (app_state d') = tk_image (app_state d).
Proof.
  intros Hp. unfold save_image. rewrite Hp. eexists. by repeat split.
Qed.

(** After any session, [save_image] writes what the canvas shows: with a
    path chosen and [Image.save] returning, the pixels handed to the file
    are those on the canvas, the box "Image saved to ..." is shown, and
    the application is unchanged.  When the dialog is cancelled nothing
    happens at all, and when [Image.save] raises, no box is shown. *)
Theorem save_image_saves_canvas actions g file_path shown :
  Forall wf_action actions → file_path ≠ "" →
  let d := session actions (start g) in
  tk_image (app_state d) = Some shown →
  (∃ d',
     save_image file_path (Ok ()) d = (Ok (), d')
     ∧ saves d' = (file_path, shown) :: saves d
     ∧ infos d' = ("Saved", "Image saved to " +:+ file_path) :: infos d
     ∧ app_state d' = app_state d ∧ errors d' = errors d)
  ∧ (∀ written, save_image "" written d = (Ok (), d))
  ∧ (∀ e, save_image file_path (Raise e) d = (Raise e, d)).
Proof.
  intros Ha Hpath d Htk.
  destruct (session_invariant actions g Ha) as [_ [Hc _]]. fold d in Hc.
  rewrite Htk in Hc. destruct (processed_image (app_state d)) as [l|] eqn:Hp; [|done].
  cbn in Hc. symmetry in Hc. unfold save_image. rewrite Hp, Hc.
  rewrite decide_False by done. split; [|split].
  - eexists. by repeat split.
  - intros written. by rewrite decide_True.
  - intros e. by rewrite decide_False.
Qed.

(** [load_from_url] with a URL and a download that succeeds does what
    [load_image] does with the same image, and shows no error box.  When
    the download or the decoding raises, the only effect is the error box
    with the text of the exception: the image loaded before stays loaded
    and displayed.  With the dialog cancelled or left empty nothing
    happens. *)
Theorem load_from_url_outcome d url fetched :
  url ≠ "" →
  (∀ opened, ∃ σ',
     load_image opened (app_state d) = (Ok (), σ')
     ∧ load_from_url (Some url) (inl opened) d = (Ok (), set_app_state σ' d))
  ∧ (∀ text,
       load_from_url (Some url) (inr text) d
       = (Ok (), showerror "Error" ("Failed to load image from URL: " +:+ text) d))
  ∧ load_from_url None fetched d = (Ok (), d)
  ∧ load_from_url (Some "") fetched d = (Ok (), d).
Proof.
  intros Hurl. split; [|split; [|split]].
  - intros opened. eexists. split; [apply load_image_run|].
    unfold load_from_url. rewrite decide_False by done. by rewrite load_image_run.
  - intros text. unfold load_from_url. by rewrite decide_False.
  - done.
  - done.
Qed.


End Files.

(** ** More runs of the sample *)

Section MoreSamples.
#[local] Existing Instance lcg.
#[local] Existing Instance blank_filter.

Lemma shift_colors_reverse_first_witness :
  ∃ unshifted,
    (shift_colors (data sample_image) 7 true sample_state).1 = Ok unshifted
    ∧ Forall valid_pixel unshifted
    ∧ (shift_colors unshifted 7 false other_state).1 = Ok (data sample_image).
Proof.
  apply (@shift_colors_reverse_first lcg (data sample_image) 7 sample_state other_state).
  compute_done.
Defined.

Lemma shuffle_pixels_reverse_first_witness :
  ∃ σ1 l1 unshuffled,
    shuffle_pixels 0%nat 7 true sample_state = (Ok l1, σ1)
    ∧ heap σ1 !! l1 = Some unshuffled
    ∧ ∀ σ2 l2, heap σ2 !! l2 = Some unshuffled →
        ∃ σ3 l3, shuffle_pixels l2 7 false σ2 = (Ok l3, σ3)
                 ∧ heap σ3 !! l3 = Some sample_image.
Proof.
  apply (@shuffle_pixels_reverse_first lcg sample_state 0%nat sample_image 7); compute_done.
Defined.

Lemma shuffle_pixels_rearranges_witness :
  ∃ σ' l' out,
    shuffle_pixels 0%nat 7 false sample_state = (Ok l', σ') ∧ heap σ' !! l' = Some out
    ∧ mode out = mode sample_image
    ∧ data out ≡ₚ data sample_image
    ∧ (∀ p, data sample_image = replicate (length (data sample_image)) p
            → out = sample_image).
Proof.
  apply (@shuffle_pixels_rearranges lcg sample_state 0%nat sample_image 7 false);
    compute_done.
Defined.

Lemma no_image_loaded_witness :
  ∃ σ',
    encrypt_image (init 0) = (Ok (), σ') ∧ decrypt_image (init 0) = (Ok (), σ')
    ∧ warnings σ' = ("Warning", "No image loaded!") :: warnings (init 0)
    ∧ heap σ' = heap (init 0) ∧ rng σ' = rng (init 0)
    ∧ image σ' = None ∧ processed_image σ' = processed_image (init 0)
    ∧ tk_image σ' = tk_image (init 0).
Proof.
  apply (@no_image_loaded lcg blank_filter (@init lcg 0)). compute_done.
Defined.

Lemma unencodable_password_witness :
  encrypt_image surrogate_state = (Raise UnicodeEncodeError, surrogate_state)
  ∧ decrypt_image surrogate_state = (Raise UnicodeEncodeError, surrogate_state).
Proof.
  apply (@unencodable_password lcg blank_filter surrogate_state 0%nat); compute_done.
Defined.

Lemma decrypt_image_allocates_witness :
  ∃ σ' l',
    decrypt_image sample_state = (Ok (), σ')
    ∧ processed_image σ' = Some l' ∧ heap sample_state !! l' = None
    ∧ is_Some (heap σ' !! l')
    ∧ image σ' = Some 0%nat ∧ heap σ' !! 0%nat = Some sample_image
    ∧ ∀ k, k ≠ l' → heap σ' !! k = heap sample_state !! k.
Proof.
  apply (@decrypt_image_allocates lcg blank_filter sample_state 0%nat sample_image);
    compute_done.
Defined.

Lemma decrypt_encrypt_roundtrip_witness :
  ∃ σ1 l1 dec,
    decrypt_image sample_state = (Ok (), σ1)
    ∧ processed_image σ1 = Some l1 ∧ heap σ1 !! l1 = Some dec
    ∧ ∀ σ2 l2,
        image σ2 = Some l2 → heap σ2 !! l2 = Some dec →
        password_entry σ2 = password_entry sample_state →
        color_shift_var σ2 = color_shift_var sample_state →
        ∃ σ3 l3,
          encrypt_image σ2 = (Ok (), σ3)
          ∧ processed_image σ3 = Some l3 ∧ heap σ3 !! l3 = Some sample_image.
Proof.
  apply (@decrypt_encrypt_roundtrip lcg blank_filter sample_state 0%nat sample_image);
    compute_done.
Defined.

Lemma checkbox_mismatch_witness :
  ∃ seed σ1 l1 enc,
    generate_seed (password_entry sample_state) = Ok seed
    ∧ encrypt_image sample_state = (Ok (), σ1)
    ∧ processed_image σ1 = Some l1 ∧ heap σ1 !! l1 = Some enc
    ∧ ∀ σ2 l2,
        image σ2 = Some l2 → heap σ2 !! l2 = Some enc →
        password_entry σ2 = password_entry sample_state →
        color_shift_var σ2 = negb (color_shift_var sample_state) →
        ∃ σ3 l3,
          decrypt_image σ2 = (Ok (), σ3) ∧ processed_image σ3 = Some l3
          ∧ heap σ3 !! l3 =
              Some (mkImage (mode sample_image) (width sample_image) (height sample_image)
                      (if color_shift_var sample_state
                       then Spec.apply_shift (data sample_image) seed
                       else Spec.reverse_shift (data sample_image) seed)).
Proof.
  apply (@checkbox_mismatch lcg blank_filter sample_state 0%nat sample_image);
    compute_done.
Defined.

Lemma buttons_read_self_image_witness :
  ∃ seed σ1,
    generate_seed (password_entry sample_state) = Ok seed
    ∧ encrypt_image sample_state = (Ok (), σ1)
    ∧ let shift := color_shift_var sample_state in
      let src := if shift then Spec.apply_shift (data sample_image) seed
                 else data sample_image in
      (data <$> heap σ1 !! 0%nat) = Some src
      ∧ (∃ σ2 l2,
           encrypt_image σ1 = (Ok (), σ2) ∧ processed_image σ2 = Some l2
           ∧ (data <$> heap σ2 !! l2) = Some (Spec.Encrypt src seed shift)
           ∧ (data <$> heap σ2 !! 0%nat)
             = Some (if shift then Spec.apply_shift src seed else src))
      ∧ (∃ σ3 l3,
           decrypt_image σ1 = (Ok (), σ3) ∧ processed_image σ3 = Some l3
           ∧ (data <$> heap σ3 !! l3) = Some (Spec.Decrypt src seed shift)).
Proof.
  apply (@buttons_read_self_image lcg blank_filter sample_state 0%nat sample_image);
    compute_done.
Defined.

Lemma session_invariant_witness :
  loaded_ok (app_state (session sample_session (start 0)))
  ∧ canvas_ok (app_state (session sample_session (start 0))).
Proof.
  apply (@session_invariant lcg blank_filter sample_session 0). compute_done.
Defined.

Lemma callback_never_fails_witness :
  let σ := app_state (session sample_session (start 0)) in
  (callback Press_decrypt σ).1 = Ok ()
  ∨ (callback Press_decrypt σ = (Raise UnicodeEncodeError, σ)
     ∧ ¬ well_formed (password_entry σ)).
Proof.
  apply (@callback_never_fails lcg blank_filter sample_session 0 Press_decrypt);
    compute_done.
Defined.

Lemma save_image_nothing_to_save_witness :
  ∃ d',
    save_image "out.png" (Ok ()) (start 0) = (Ok (), d')
    ∧ warnings (app_state d')
      = ("Warning", "No image to save!") :: warnings (app_state (start 0))
    ∧ saves d' = saves (start 0) ∧ infos d' = infos (start 0)
    ∧ errors d' = errors (start 0)
    ∧ heap (app_state d') = heap (app_state (start 0))
    ∧ image (app_state d') = image (app_state (start 0))
    ∧ tk_image (app_state d') = tk_image (app_state (start 0)).
Proof.
  apply (@save_image_nothing_to_save lcg (@start lcg 0) "out.png" (Ok ())).
  compute_done.
Defined.

Lemma save_image_saves_canvas_witness :
  let d := session [Do (Load sample_image)] (start 0) in
  (∃ d',
     save_image "out.png" (Ok ()) d = (Ok (), d')
     ∧ saves d' = ("out.png", sample_image) :: saves d
     ∧ infos d' = ("Saved", "Image saved to " +:+ "out.png") :: infos d
     ∧ app_state d' = app_state d ∧ errors d' = errors d)
  ∧ (∀ written, save_image "" written d = (Ok (), d))
  ∧ (∀ e, save_image "out.png" (Raise e) d = (Raise e, d)).
Proof.
  apply (@save_image_saves_canvas lcg blank_filter [Do (Load sample_image)] 0 "out.png"
           sample_image); compute_done.
Defined.

Lemma load_from_url_outcome_witness :
  let d := session sample_session (start 0) in
  (∀ opened, ∃ σ',
     load_image opened (app_state d) = (Ok (), σ')
     ∧ load_from_url (Some "http://localhost/x.png") (inl opened) d
       = (Ok (), set_app_state σ' d))
  ∧ (∀ text,
       load_from_url (Some "http://localhost/x.png") (inr text) d
       = (Ok (), showerror "Error" ("Failed to load image from URL: " +:+ text) d))
  ∧ load_from_url None (inr "404") d = (Ok (), d)
  ∧ load_from_url (Some "") (inr "404") d = (Ok (), d).
Proof.
  apply (@load_from_url_outcome lcg blank_filter (session sample_session (@start lcg 0))
           "http://localhost/x.png" (inr "404")). compute_done.
Defined.


End MoreSamples.
